(** * TranscriptionTools: the summarization and formatting pipelines

    A shallow embedding of [summaryText] (src/tools/summary.ts) and of
    [formatTranscript] (src/tools/formatting.ts), with [FileHandler]
    (src/utils/file-handler.ts) and the JavaScript built-ins they call,
    followed by the properties the specification states about them.

    Conventions of the embedding.
    - A JavaScript string is the list of its UTF-16 code units, so that
      [.length] is [List.length] and a regular expression without the [u]
      flag reads one list element at a time.
    - A JavaScript number is an IEEE 754 binary64 value.  The finite
      doubles are rationals, so a number is a [Q] and every arithmetic
      operation of the scorer is the exact operation followed by [Double.nearest],
      rounding to nearest, ties to even.  Lengths and indexes are [nat],
      timestamps are [Z]; the budget of the selection is only ever compared
      with an integer length and is kept as the exact rational.
    - A rejected promise is the [Err] constructor of [result], carrying the
      message of the thrown [Error]. *)

From Stdlib Require Import Ascii String.
From Stdlib Require Import List Bool Arith ZArith NArith QArith Qminmax Qround Qabs Qpower Lia.
From Stdlib Require Import Permutation Sorted Lqa.
Import ListNotations.

Set Implicit Arguments.

(** ** JavaScript built-ins *)

Module JS.

Definition char := N.
Definition str := list char.

(** The line feed. *)
Definition LF : char := 10%N.

(** String literals: ASCII text as code units. *)
Definition lit (s : string) : str := map N_of_ascii (list_ascii_of_string s).

Definition str_eqb (a b : str) : bool :=
  if list_eq_dec N.eq_dec a b then true else false.

(** The character class [\s] (WhiteSpace and LineTerminator of ECMAScript);
    [String.prototype.trim] strips exactly the same code units. *)
Definition is_space (c : char) : bool :=
  ((9 <=? c) && (c <=? 13) || (c =? 32) || (c =? 160) || (c =? 5760)
   || (8192 <=? c) && (c <=? 8202) || (c =? 8232) || (c =? 8233)
   || (c =? 8239) || (c =? 8287) || (c =? 12288) || (c =? 65279))%N.

Fixpoint trimStart (s : str) : str :=
  match s with
  | [] => []
  | c :: s' => if is_space c then trimStart s' else s
  end.

Fixpoint trimEnd (s : str) : str :=
  match s with
  | [] => []
  | c :: s' =>
      match trimEnd s' with
      | [] => if is_space c then [] else [c]
      | t => c :: t
      end
  end.

Definition trim (s : str) : str := trimEnd (trimStart s).

(** [s.split(/\s+/)].  The scan carries the piece being read: [Some cur]
    while inside a piece ([cur] holds it reversed), [None] while inside a
    run of white space that has already closed the previous piece.  The end
    of the string closes the last piece, which is empty after trailing
    white space; the empty string gives the single piece [""]. *)
Fixpoint split_go (piece : option str) (s : str) : list str :=
  match s with
  | [] => [match piece with Some cur => rev cur | None => [] end]
  | c :: s' =>
      if is_space c then
        match piece with
        | Some cur => rev cur :: split_go None s'
        | None => split_go None s'
        end
      else
        match piece with
        | Some cur => split_go (Some (c :: cur)) s'
        | None => split_go (Some [c]) s'
        end
  end.

Definition split_ws (s : str) : list str := split_go (Some []) s.

(** [a.join(sep)], an [undefined] element printing as the empty string. *)
Fixpoint join (sep : str) (a : list (option str)) : str :=
  match a with
  | [] => []
  | [x] => match x with Some s => s | None => [] end
  | x :: rest => match x with Some s => s | None => [] end ++ sep ++ join sep rest
  end.

(** [a.map((x, index) => f x index)] *)
Fixpoint mapi_from (A B : Type) (f : A -> nat -> B) (i : nat) (a : list A) : list B :=
  match a with
  | [] => []
  | x :: rest => f x i :: mapi_from f (S i) rest
  end.

Definition mapi (A B : Type) (f : A -> nat -> B) (a : list A) : list B :=
  mapi_from f 0 a.

(** [a.findIndex(p)]: the first index whose element satisfies [p], or -1. *)
Fixpoint findIndex_from (A : Type) (p : A -> bool) (i : Z) (a : list A) : Z :=
  match a with
  | [] => (-1)%Z
  | x :: rest => if p x then i else findIndex_from p (i + 1)%Z rest
  end.

Definition findIndex (A : Type) (p : A -> bool) (a : list A) : Z :=
  findIndex_from p 0%Z a.

(** [a[i]]: [undefined] outside the array. *)
Definition get (A : Type) (a : list A) (i : Z) : option A :=
  if (i <? 0)%Z then None else nth_error a (Z.to_nat i).

(** [a.sort(cmp)].  The sort is stable (ECMAScript 2019), so for a
    consistent comparator its result is the one of a stable insertion sort.
    [after x y] says that [cmp(x, y) > 0]: [x] has to come after [y]. *)
Fixpoint insert (A : Type) (after : A -> A -> bool) (x : A) (l : list A) : list A :=
  match l with
  | [] => [x]
  | y :: l' => if after x y then y :: insert after x l' else x :: l
  end.

Definition sort (A : Type) (after : A -> A -> bool) (a : list A) : list A :=
  fold_right (insert after) [] a.

End JS.

Import JS.

Definition Qnat (n : nat) : Q := inject_Z (Z.of_nat n).

Definition Qltb (x y : Q) : bool := negb (Qle_bool y x).

(** [v ? a : b] on a number: zero is falsy. *)
Definition truthy (v : Q) : bool := negb (Qeq_bool v 0).

(** ** Numbers

    The binary64 format: 53 significant bits, exponents from -1022 to 1023,
    gradual underflow.  A finite double is an integer multiple of the
    quantum of its binade, [2 ^ (e - 52)] for a value in
    [[2 ^ e, 2 ^ (e + 1))], with [e] at least -1022.  Overflow is not
    modelled: the numbers of the scorer stay between 0 and 1. *)

Module Double.

(** The nearest integer, the even one of two nearest. *)
Definition rne (y : Q) : Z :=
  let f := Qfloor y in
  match Qcompare (y - inject_Z f) (1 # 2) with
  | Lt => f
  | Gt => (f + 1)%Z
  | Eq => if Z.even f then f else (f + 1)%Z
  end.

(** The binade of a positive rational: [2 ^ ilog2 x <= x < 2 ^ (ilog2 x + 1)]. *)
Definition ilog2 (x : Q) : Z :=
  let e := (Z.log2 (Qnum x) - Z.log2 (Z.pos (Qden x)))%Z in
  if Qle_bool (2 ^ e) x then e else (e - 1)%Z.

Definition exponent (x : Q) : Z := Z.max (ilog2 x) (-1022).

Definition quantum (x : Q) : Q := 2 ^ (exponent x - 52).

Definition nearest_pos (x : Q) : Q :=
  inject_Z (rne (x / quantum x)) * quantum x.

(** The double nearest to a rational. *)
Definition nearest (x : Q) : Q :=
  match Qcompare x 0 with
  | Eq => 0
  | Gt => nearest_pos x
  | Lt => - nearest_pos (- x)
  end.

(** A decimal literal of the source text. *)
Definition literal (x : Q) : Q := nearest x.

Definition add (x y : Q) : Q := nearest (x + y).
Definition sub (x y : Q) : Q := nearest (x - y).
Definition mul (x y : Q) : Q := nearest (x * y).
Definition div (x y : Q) : Q := nearest (x / y).

End Double.

(** A promise, settled. *)
Inductive result (A : Type) : Type :=
| Ok (value : A)
| Err (message : str).
Arguments Ok {A} value.
Arguments Err {A} message.

Definition bind (A B : Type) (m : result A) (k : A -> result B) : result B :=
  match m with
  | Ok a => k a
  | Err e => Err e
  end.

Notation "x <- m ;; k" := (bind m (fun x => k))
  (at level 61, m at next level, right associativity).

(** ** src/utils/file-handler.ts

    [fs.readFile] is the one thing the pipelines read from outside the
    process; a failure carries the message of the error it throws. *)

Module FileHandler.

Record FileSystem : Type := { readFile : str -> result str }.

Definition readTextFile (fs : FileSystem) (filePath : str) : result str :=
  match readFile fs filePath with
  | Ok content => Ok content
  | Err message =>
      Err (lit "Failed to read file " ++ filePath ++ lit ": " ++ message)
  end.

Definition resolveTextContent (fs : FileSystem) (content : str)
    (isFilePath : bool) : result str :=
  if isFilePath then readTextFile fs content else Ok content.

(** What [writeTextFile] reaches: [path.dirname] of Node, [fs.mkdir] with
    the [recursive] option and [fs.writeFile]. *)
Record Disk : Type := {
  dirname : str -> str;
  mkdir : str -> result unit;
  writeFile : str -> str -> result unit
}.

Definition writeTextFile (disk : Disk) (filePath content : str) : result unit :=
  let attempt :=
    let dir := dirname disk filePath in
    _ <- mkdir disk dir ;;
    writeFile disk filePath content in
  match attempt with
  | Ok done => Ok done
  | Err message =>
      Err (lit "Failed to write file " ++ filePath ++ lit ": " ++ message)
  end.

(** [generateSessionId], from the text [now.toISOString()] of the clock:
    [replace(/[-:.]/g, '')] and then [slice(0, 14)]. *)
Definition is_separator (c : char) : bool :=
  ((c =? 45) || (c =? 58) || (c =? 46))%N.

Definition generateSessionId (isoString : str) : str :=
  firstn 14 (filter (fun c => negb (is_separator c)) isoString).

End FileHandler.

(** ** src/tools/summary.ts *)

Module Summary.

Inductive ConstraintType : Type := ByTime | ByChars | ByWords.

Record SummaryTextParams : Type := {
  input_text : str;
  is_file_path : option bool;
  constraint_type : option ConstraintType;
  constraint_value : option Q
}.

Definition is_terminator (c : char) : bool :=
  ((c =? 46) || (c =? 33) || (c =? 63))%N.

(** [textContent.match(/[^.!?]+[.!?]+/g) || []].  A match starts at the
    first code unit that is no terminator, takes the whole run of
    non-terminators and then the whole run of terminators after it; a run
    of non-terminators that reaches the end of the text matches nothing.
    [cur] is the text of the match in progress, reversed. *)
Inductive Scan : Type := Skipping | InBody | InTerminators.

Fixpoint matchSentences_go (st : Scan) (cur : str) (s : str) : list str :=
  match s with
  | [] =>
      match st with
      | InTerminators => [rev cur]
      | _ => []
      end
  | c :: s' =>
      match st with
      | Skipping =>
          if is_terminator c then matchSentences_go Skipping [] s'
          else matchSentences_go InBody [c] s'
      | InBody =>
          if is_terminator c then matchSentences_go InTerminators (c :: cur) s'
          else matchSentences_go InBody (c :: cur) s'
      | InTerminators =>
          if is_terminator c then matchSentences_go InTerminators (c :: cur) s'
          else rev cur :: matchSentences_go InBody [c] s'
      end
  end.

Definition matchSentences (textContent : str) : list str :=
  matchSentences_go Skipping [] textContent.

(** Step 1: the target length. *)
Definition ifValue (constraint_value : option Q) (given : Q -> Q) (absent : Q) : Q :=
  match constraint_value with
  | Some v => if truthy v then given v else absent
  | None => absent
  end.

Definition targetLength (constraint_type : option ConstraintType)
    (constraint_value : option Q) (wordCount contentLength : nat) : Q :=
  match constraint_type with
  | Some ByTime =>
      let baseRate := 150 in
      ifValue constraint_value (fun v => v * baseRate / 60) (Qnat wordCount * 0.3)
  | Some ByChars =>
      ifValue constraint_value (fun v => v) (Qnat contentLength * 0.3)
  | Some ByWords =>
      ifValue constraint_value (fun v => v) (Qnat wordCount * 0.3)
  | None => Qnat wordCount * 0.3
  end.

(** Step 3: the scores.  An index and a length are integers below [2 ^ 53],
    which are doubles as they are; the divisor [sentences.length] is the
    length of the array the callback runs over, never zero. *)
Record Scored : Type := { sentence : str; score : Q }.

Definition positionScore (index n : nat) : Q :=
  Double.sub 1 (Double.div (Qnat index) (Qnat n)).

Definition lengthScore (sentence : str) : Q :=
  Qmin 1 (Double.div (Qnat (length sentence)) 100).

Definition sentenceScores (sentences : list str) : list Scored :=
  mapi (fun sentence index =>
          let positionScore := positionScore index (length sentences) in
          let lengthScore := lengthScore sentence in
          {| sentence := sentence;
             score := Double.add (Double.mul positionScore (Double.literal 0.7))
                                 (Double.mul lengthScore (Double.literal 0.3)) |})
       sentences.

(** [(a, b) => b.score - a.score] is positive when [a] scores less. *)
Definition byScore (a b : Scored) : bool :=
  Qltb 0 (Double.sub (score b) (score a)).

(** Step 4: the selection loop. *)
Inductive Metric : Type := CharsMetric | WordsMetric.

Definition targetMetric (constraint_type : option ConstraintType) : Metric :=
  match constraint_type with
  | Some ByChars => CharsMetric
  | _ => WordsMetric
  end.

Definition sentenceLength (metric : Metric) (sentence : str) : nat :=
  match metric with
  | CharsMetric => length sentence
  | WordsMetric => length (split_ws sentence)
  end.

Fixpoint select (metric : Metric) (target : Q) (items : list Scored)
    (selectedSentences : list str) (currentLength : nat) : list str * nat :=
  match items with
  | [] => (selectedSentences, currentLength)
  | item :: rest =>
      let sentenceLength := sentenceLength metric (sentence item) in
      if Qle_bool (Qnat (currentLength + sentenceLength)) target then
        select metric target rest
               (selectedSentences ++ [sentence item])
               (currentLength + sentenceLength)
      else if (length selectedSentences =? 0)%nat then
        (selectedSentences ++ [sentence item], currentLength)
      else
        (selectedSentences, currentLength)
  end.

(** Step 5: back to the order of the text. *)
Definition sentenceIndexes (sentences selectedSentences : list str) : list Z :=
  map (fun sentence => findIndex (fun s => str_eqb s sentence) sentences)
      selectedSentences.

Definition byIndex (a b : Z) : bool := (0 <? a - b)%Z.

Definition restoreOrder (sentences selectedSentences : list str)
  : list (option str) :=
  let sortedIndexes := JS.sort byIndex (sentenceIndexes sentences selectedSentences) in
  map (fun index => get sentences index) sortedIndexes.

(** The records handed to the logger. *)
Record ConstraintDetails : Type := {
  type : option ConstraintType;
  target : option Q;
  achieved : nat
}.

Record ComprehensionMetrics : Type := {
  coreThemeCount : nat;
  relationshipNodes : nat;
  causalChains : nat;
  hierarchyLevels : nat
}.

Record ContextMaps : Type := {
  semanticUnits : nat;
  densityEvaluation : str;
  dependencyGraph : str;
  narrativeThreads : str
}.

Record ProcessStats : Type := {
  primingFactors : list str;
  comprehensionMetrics : ComprehensionMetrics;
  contextMaps : ContextMaps;
  expansionIterations : nat;
  recursiveOptimizations : nat
}.

(** [Logger.logSummaryProcess] (src/utils/logger.ts) renders the two records
    and writes them with [FileHandler.writeTextFile]; it returns the path of
    the log, or fails with the error of the write.  Path and rendering play
    no part in the summary, so the logger is taken by its outcome. *)
Record Logger : Type := {
  logSummaryProcess : ConstraintDetails -> ProcessStats -> result str
}.

(** [textContent.split(/\n\n+/).length]: one more than the number of runs of
    two line feeds or more.  [run] counts the line feeds just read, up to 2. *)
Fixpoint paragraphBreaks (run : nat) (s : str) : nat :=
  match s with
  | [] => 0
  | c :: s' =>
      if (c =? 10)%N then
        match run with
        | O => paragraphBreaks 1 s'
        | S O => S (paragraphBreaks 2 s')
        | _ => paragraphBreaks 2 s'
        end
      else paragraphBreaks 0 s'
  end.

Definition paragraphCount (textContent : str) : nat :=
  S (paragraphBreaks 0 textContent).

(** The body of [summaryText] between the resolution of the content and the
    call of the logger: the summary and what the logger is given. *)
Definition summarize (textContent : str)
    (constraint_type : option ConstraintType) (constraint_value : option Q)
  : str * (ConstraintDetails * ProcessStats) :=
  let contentLength := length textContent in
  let wordCount := length (split_ws textContent) in
  let targetLength :=
    targetLength constraint_type constraint_value wordCount contentLength in
  let primingFactors :=
    [lit "Document length analysis"; lit "Content type recognition";
     lit "Terminological evaluation"; lit "Priority patterns identified"] in
  let paragraphs := paragraphCount textContent in
  let comprehensionMetrics :=
    {| coreThemeCount := Nat.min 5 paragraphs;
       relationshipNodes := paragraphs * 2;
       causalChains := paragraphs / 2;
       hierarchyLevels := 3 |} in
  let sentences := matchSentences textContent in
  let sentenceScores := JS.sort byScore (sentenceScores sentences) in
  let contextMaps :=
    {| semanticUnits := length sentences;
       densityEvaluation := lit "Completed";
       dependencyGraph := lit "Generated";
       narrativeThreads := lit "Mapped" |} in
  let '(selectedSentences, currentLength) :=
    select (targetMetric constraint_type) targetLength sentenceScores [] 0 in
  let selectedSentences := restoreOrder sentences selectedSentences in
  let summary := trim (join (lit " ") selectedSentences) in
  (summary,
   ({| type := constraint_type; target := constraint_value;
       achieved := currentLength |},
    {| primingFactors := primingFactors;
       comprehensionMetrics := comprehensionMetrics;
       contextMaps := contextMaps;
       expansionIterations := 3;
       recursiveOptimizations := 2 |})).

Definition summaryText (fs : FileHandler.FileSystem) (logger : Logger)
    (params : SummaryTextParams) : result str :=
  let is_file_path :=
    match is_file_path params with Some b => b | None => false end in
  let attempt :=
    textContent <- FileHandler.resolveTextContent fs (input_text params) is_file_path ;;
    let '(summary, (constraintDetails, processStats)) :=
      summarize textContent (constraint_type params) (constraint_value params) in
    _ <- logSummaryProcess logger constraintDetails processStats ;;
    Ok summary in
  match attempt with
  | Ok summary => Ok summary
  | Err message => Err (lit "Summary process failed: " ++ message)
  end.

End Summary.

(** ** src/tools/formatting.ts *)

Module Formatting.

Record FormatTranscriptParams : Type := {
  input_text : str;
  is_file_path : option bool;
  paragraph_gap : option Q;
  line_gap : option Q
}.

Record Segment : Type := { time : Z; text : str }.

(** *** Parsing the lines *)

Definition is_digit (c : char) : bool := ((48 <=? c) && (c <=? 57))%N.

(** [parseInt] of two decimal digits. *)
Definition parseInt2 (d1 d2 : char) : Z := Z.of_N (10 * (d1 - 48) + (d2 - 48)).

(** The line terminators, which [.] does not match. *)
Definition is_line_terminator (c : char) : bool :=
  ((c =? 10) || (c =? 13) || (c =? 8232) || (c =? 8233))%N.

Fixpoint dotStar (s : str) : str :=
  match s with
  | [] => []
  | c :: s' => if is_line_terminator c then [] else c :: dotStar s'
  end.

(** The pattern of a time stamp, an opening bracket, three groups of two
    digits separated by colons and a closing bracket, followed by white space
    and by the rest of the line as the fourth group, tried at the head of
    [s]: the three numbers and the fourth group. *)
Definition timestampAt (s : str) : option (Z * Z * Z * str) :=
  match s with
  | b1 :: h1 :: h2 :: c1 :: m1 :: m2 :: c2 :: s1 :: s2 :: b2 :: rest =>
      if ((b1 =? 91) && is_digit h1 && is_digit h2 && (c1 =? 58)
          && is_digit m1 && is_digit m2 && (c2 =? 58)
          && is_digit s1 && is_digit s2 && (b2 =? 93))%N
      then Some (parseInt2 h1 h2, parseInt2 m1 m2, parseInt2 s1 s2,
                 dotStar (trimStart rest))
      else None
  | _ => None
  end.

(** [line.match(...)]: the leftmost place where the pattern matches. *)
Fixpoint matchTimestamp (line : str) : option (Z * Z * Z * str) :=
  match timestampAt line with
  | Some m => Some m
  | None =>
      match line with
      | [] => None
      | _ :: line' => matchTimestamp line'
      end
  end.

(** [s.split(LF)] *)
Fixpoint splitLines (s : str) : list str :=
  match s with
  | [] => [[]]
  | c :: s' =>
      if (c =? 10)%N then [] :: splitLines s'
      else
        match splitLines s' with
        | l :: ls => (c :: l) :: ls
        | [] => [[c]]
        end
  end.

(** [segments[segments.length - 1].text += more] *)
Fixpoint appendToLast (segments : list Segment) (more : str) : list Segment :=
  match segments with
  | [] => []
  | [s] => [{| time := time s; text := text s ++ more |}]
  | s :: rest => s :: appendToLast rest more
  end.

Definition parseLine (segments : list Segment) (line : str) : list Segment :=
  match matchTimestamp line with
  | Some (hours, minutes, seconds, group4) =>
      let text := trim group4 in
      let timeInSeconds := (hours * 3600 + minutes * 60 + seconds)%Z in
      segments ++ [{| time := timeInSeconds; text := text |}]
  | None =>
      if (0 <? length segments)%nat then
        appendToLast segments (lit " " ++ trim line)
      else
        segments ++ [{| time := 0; text := trim line |}]
  end.

Definition parseSegments (textContent : str) : list Segment :=
  fold_left parseLine (splitLines (trim textContent)) [].

(** *** Assembling the text *)

Definition lastChar (s : str) : option char := last (map Some s) None.

Definition endsWithSentenceMarker (formattedText : str) : bool :=
  match lastChar formattedText with
  | Some c => ((c =? 46) || (c =? 33) || (c =? 63))%N
  | None => false
  end.

Definition startsWithLowerCase (text : str) : bool :=
  match text with
  | c :: _ => ((97 <=? c) && (c <=? 122))%N
  | [] => false
  end.

Definition isChar (x : option char) (c : char) : bool :=
  match x with
  | Some y => (y =? c)%N
  | None => false
  end.

(** One turn of the loop over the segments, [i] being the loop index. *)
Definition assembleStep (paragraph_gap line_gap : Q) (i : nat)
    (segment : Segment) (state : str * Z) : str * Z :=
  let '(formattedText, lastTime) := state in
  let formattedText :=
    if (i =? 0)%nat then text segment
    else
      let timeGap := (time segment - lastTime)%Z in
      if Qltb paragraph_gap (inject_Z timeGap) then
        formattedText ++ [LF; LF] ++ text segment
      else if Qltb line_gap (inject_Z timeGap) then
        formattedText ++ [LF] ++ text segment
      else
        let lastChar := lastChar formattedText in
        let endsWithSentenceMarker := endsWithSentenceMarker formattedText in
        let startsWithLowerCase := startsWithLowerCase (text segment) in
        if endsWithSentenceMarker then
          formattedText ++ lit " " ++ text segment
        else if (isChar lastChar 44 || isChar lastChar 59 || isChar lastChar 58)%N then
          formattedText ++ lit " " ++ text segment
        else if startsWithLowerCase then
          formattedText ++ lit " " ++ text segment
        else
          formattedText ++ lit " " ++ text segment in
  (formattedText, time segment).

Fixpoint assembleFrom (paragraph_gap line_gap : Q) (i : nat)
    (segments : list Segment) (state : str * Z) : str * Z :=
  match segments with
  | [] => state
  | segment :: rest =>
      assembleFrom paragraph_gap line_gap (S i) rest
                   (assembleStep paragraph_gap line_gap i segment state)
  end.

(** The loop from its initial state: the text and the final [lastTime]. *)
Definition assemble (paragraph_gap line_gap : Q) (segments : list Segment)
  : str * Z :=
  assembleFrom paragraph_gap line_gap 0 segments ([], (-1)%Z).

Definition formatSegments (paragraph_gap line_gap : Q)
    (segments : list Segment) : str :=
  fst (assemble paragraph_gap line_gap segments).

Definition formatTranscript (fs : FileHandler.FileSystem)
    (params : FormatTranscriptParams) : result str :=
  let is_file_path :=
    match is_file_path params with Some b => b | None => false end in
  let paragraph_gap :=
    match paragraph_gap params with Some g => g | None => 8 end in
  let line_gap :=
    match line_gap params with Some g => g | None => 4 end in
  let attempt :=
    textContent <- FileHandler.resolveTextContent fs (input_text params) is_file_path ;;
    Ok (formatSegments paragraph_gap line_gap (parseSegments textContent)) in
  match attempt with
  | Ok formatted_text => Ok formatted_text
  | Err message => Err (lit "Formatting process failed: " ++ message)
  end.

End Formatting.

(** ** src/tools/repair.ts *)

Module Repair.

Record RepairTextParams : Type := {
  input_text : str;
  is_file_path : option bool
}.

(** *** The regular expressions of the dictionary

    The patterns are plain words under the flags [g] and [i].  Without the
    [u] flag two code units match when they canonicalize to the same code
    unit; a code unit outside ASCII never canonicalizes into ASCII, so
    against the letters of a pattern only the letter and its capital
    match. *)
Definition canonicalize (c : char) : char :=
  if ((97 <=? c) && (c <=? 122))%N then (c - 32)%N else c.

(** The pattern matches at the head of [s]. *)
Fixpoint matchesAt (pattern s : str) : bool :=
  match pattern, s with
  | [], _ => true
  | _ :: _, [] => false
  | p :: pattern', c :: s' =>
      (canonicalize p =? canonicalize c)%N && matchesAt pattern' s'
  end.

(** [pattern.test(s)], from [lastIndex] 0. *)
Fixpoint test (pattern s : str) : bool :=
  matchesAt pattern s
  || match s with
     | [] => false
     | _ :: s' => test pattern s'
     end.

(** [s.match(pattern) || []]: the matched texts from left to right, the
    search resuming behind each match.  [skip] counts the code units of the
    last match still to pass. *)
Fixpoint matchAll_go (pattern : str) (skip : nat) (s : str) : list str :=
  match s with
  | [] => []
  | _ :: s' =>
      match skip with
      | S k => matchAll_go pattern k s'
      | O =>
          if matchesAt pattern s then
            firstn (length pattern) s
              :: matchAll_go pattern (length pattern - 1) s'
          else matchAll_go pattern 0 s'
      end
  end.

Definition matchAll (pattern s : str) : list str := matchAll_go pattern 0 s.

(** [s.replace(pattern, replacement)] *)
Fixpoint replace_go (pattern replacement : str) (skip : nat) (s : str) : str :=
  match s with
  | [] => []
  | c :: s' =>
      match skip with
      | S k => replace_go pattern replacement k s'
      | O =>
          if matchesAt pattern s then
            replacement ++ replace_go pattern replacement (length pattern - 1) s'
          else c :: replace_go pattern replacement 0 s'
      end
  end.

Definition replace (pattern replacement s : str) : str :=
  replace_go pattern replacement 0 s.

(** [s.indexOf(x)]: the first place where [x] stands in [s], or -1. *)
Fixpoint startsWith (x s : str) : bool :=
  match x, s with
  | [], _ => true
  | _ :: _, [] => false
  | a :: x', c :: s' => (a =? c)%N && startsWith x' s'
  end.

Fixpoint indexOf_from (x : str) (i : Z) (s : str) : Z :=
  if startsWith x s then i
  else
    match s with
    | [] => (-1)%Z
    | _ :: s' => indexOf_from x (i + 1)%Z s'
    end.

Definition indexOf (s x : str) : Z := indexOf_from x 0%Z s.

(** [s.substring(a, b)]: both ends brought into the string, and swapped
    when they come in the wrong order. *)
Definition substring (s : str) (a b : Z) : str :=
  let len := Z.of_nat (length s) in
  let a := Z.min (Z.max a 0) len in
  let b := Z.min (Z.max b 0) len in
  let from := Z.to_nat (Z.min a b) in
  let to := Z.to_nat (Z.max a b) in
  skipn from (firstn to s).

(** [Math.round]: the nearest integer, halves upwards. *)
Definition round (x : Q) : Z := Qfloor (x + (1 # 2)).

(** *** The dictionary and the corrections *)

Record CommonError : Type := {
  pattern : str;
  replacement : str;
  errorConfidence : Z
}.

Definition commonErrors : list CommonError :=
  [ {| pattern := lit "recieve"; replacement := lit "receive";
       errorConfidence := 95 |};
    {| pattern := lit "defiantly"; replacement := lit "definitely";
       errorConfidence := 93 |};
    {| pattern := lit "irregardless"; replacement := lit "regardless";
       errorConfidence := 91 |};
    {| pattern := lit "alot"; replacement := lit "a lot";
       errorConfidence := 97 |};
    {| pattern := lit "seperate"; replacement := lit "separate";
       errorConfidence := 94 |} ].

Record Correction : Type := {
  original : str;
  corrected : str;
  confidence : Z;
  context : str;
  evidence : list str
}.

(** The body of the loop over the matches of one error. *)
Definition recordMatch (error : CommonError) (repairedText : str)
    (state : list Correction * Z) (matched : str) : list Correction * Z :=
  let '(corrections, totalConfidence) := state in
  let contextIndex := indexOf repairedText matched in
  let start := Z.max 0 (contextIndex - 20) in
  let end_ :=
    Z.min (Z.of_nat (length repairedText))
          (contextIndex + Z.of_nat (length matched) + 20) in
  let context := substring repairedText start end_ in
  (corrections
     ++ [{| original := matched;
            corrected := replace (pattern error) (replacement error) matched;
            confidence := errorConfidence error;
            context := context;
            evidence := [lit "Pattern recognition";
                         lit "Dictionary verification";
                         lit "Semantic analysis"] |}],
   (totalConfidence + errorConfidence error)%Z).

(** The body of the loop over the errors of the dictionary. *)
Definition applyError (state : str * (list Correction * Z))
    (error : CommonError) : str * (list Correction * Z) :=
  let '(repairedText, found) := state in
  if test (pattern error) repairedText then
    let matches := matchAll (pattern error) repairedText in
    (replace (pattern error) (replacement error) repairedText,
     fold_left (recordMatch error repairedText) matches found)
  else state.

Record RepairStats : Type := {
  totalWords : nat;
  correctionsMade : nat;
  averageConfidence : Z
}.

(** The body of [repairText] between the resolution of the content and the
    write of the result: the repaired text, the corrections and the
    statistics. *)
Definition repair (textContent : str) : str * (list Correction * RepairStats) :=
  let words := split_ws textContent in
  let totalWords := length words in
  let '(repairedText, (corrections, totalConfidence)) :=
    fold_left applyError commonErrors (textContent, ([], 0%Z)) in
  let correctionsMade := length corrections in
  let averageConfidence :=
    if (0 <? correctionsMade)%nat
    then round (inject_Z totalConfidence / Qnat correctionsMade)
    else 0%Z in
  (repairedText,
   (corrections,
    {| totalWords := totalWords; correctionsMade := correctionsMade;
       averageConfidence := averageConfidence |})).

(** [Logger.logRepairProcess] (src/utils/logger.ts), taken by its outcome
    like [logSummaryProcess]. *)
Record Logger : Type := {
  logRepairProcess : str -> list Correction -> RepairStats -> result str
}.

Definition repairText (fs : FileHandler.FileSystem) (disk : FileHandler.Disk)
    (logger : Logger) (params : RepairTextParams) : result str :=
  let is_file_path :=
    match is_file_path params with Some b => b | None => false end in
  let attempt :=
    textContent <- FileHandler.resolveTextContent fs (input_text params) is_file_path ;;
    let '(repairedText, (corrections, stats)) := repair textContent in
    let outputFile := lit "repaired.txt" in
    _ <- FileHandler.writeTextFile disk outputFile repairedText ;;
    _ <- logRepairProcess logger
           (if is_file_path then input_text params else lit "direct_input")
           corrections stats ;;
    Ok outputFile in
  match attempt with
  | Ok output_file => Ok output_file
  | Err message => Err (lit "Repair process failed: " ++ message)
  end.

Definition getRepairLog (fs : FileHandler.FileSystem) (session_id : str)
  : result str :=
  let attempt :=
    let logPath := lit "/logs/repairs/" ++ session_id ++ lit ".log" in
    match FileHandler.readTextFile fs logPath with
    | Ok _ => Ok logPath
    | Err _ => Err (lit "Repair log not found for session " ++ session_id)
    end in
  match attempt with
  | Ok log_file => Ok log_file
  | Err message => Err (lit "Failed to retrieve repair log: " ++ message)
  end.

End Repair.

Import Summary.
Import Formatting.

(** * The vocabulary of the properties *)

Definition terminators (s : str) : Prop :=
  Forall (fun c => is_terminator c = true) s.

Definition terminator_free (s : str) : Prop :=
  Forall (fun c => is_terminator c = false) s.

(** What each state of the scan owes to the text read so far. *)
Definition covers (st : Scan) (cur s : str) : Prop :=
  match st with
  | Skipping =>
      exists lead tail,
        s = lead ++ concat (matchSentences_go st cur s) ++ tail
        /\ terminators lead /\ terminator_free tail
  | InBody =>
      terminator_free cur ->
      exists tail,
        rev cur ++ s = concat (matchSentences_go st cur s) ++ tail
        /\ terminator_free tail
  | InTerminators =>
      exists tail,
        rev cur ++ s = concat (matchSentences_go st cur s) ++ tail
        /\ terminator_free tail
  end.

(** Every match ends with a terminator. *)
Definition ends_with_terminator (s : str) : Prop :=
  exists body c, s = body ++ [c] /\ is_terminator c = true.

(** The break of the Gap Classifier for a gap in seconds: a blank line, a
    line break or a single space. *)
Definition breakFor (paragraph_gap line_gap : Q) (gap : Z) : str :=
  if Qltb paragraph_gap (inject_Z gap) then [LF; LF]
  else if Qltb line_gap (inject_Z gap) then [LF]
  else lit " ".

(** The Text Assembler with the inline case collapsed to its one effect:
    [lastTime] is seeded from the first segment, which is emitted as it is,
    and every later segment is appended behind the break of its gap. *)
Fixpoint simplifiedFrom (paragraph_gap line_gap : Q) (lastTime : Z)
    (formattedText : str) (segments : list Segment) : str :=
  match segments with
  | [] => formattedText
  | segment :: rest =>
      simplifiedFrom paragraph_gap line_gap (time segment)
        (formattedText
           ++ breakFor paragraph_gap line_gap (time segment - lastTime)
           ++ text segment)
        rest
  end.

Definition simplifiedAssembler (paragraph_gap line_gap : Q)
    (segments : list Segment) : str :=
  match segments with
  | [] => []
  | first :: rest =>
      simplifiedFrom paragraph_gap line_gap (time first) (text first) rest
  end.

(** The tokens of a text: its maximal runs without white space. *)
Definition nonempty (s : str) : bool :=
  match s with
  | [] => false
  | _ => true
  end.

Definition tokens (s : str) : list str := filter nonempty (split_ws s).

(** An array with the index of each element in front of it. *)
Definition indexedFrom (A : Type) (k : nat) (a : list A) : list (nat * A) :=
  combine (seq k (length a)) a.

Definition indexed (A : Type) (a : list A) : list (nat * A) := indexedFrom 0 a.

(** The order of the ranking: the higher composite score first and, at
    equal scores, the lower original index first. *)
Definition ranksBefore (a b : nat * Scored) : Prop :=
  score (snd b) < score (snd a)
  \/ (score (snd a) == score (snd b) /\ (fst a < fst b)%nat).

(** The comparator of the ranking on indexed sentences. *)
Definition byScoreIndexed (a b : nat * Scored) : bool := byScore (snd a) (snd b).

(** The length the selection counts for a list of candidates. *)
Definition totalLength (metric : Metric) (items : list Scored) : nat :=
  list_sum (map (fun item => sentenceLength metric (sentence item)) items).

(** A document of ten sentences, nineteen words by the count of the
    selection. *)
Definition tenSentences : str :=
  lit "One. Two. Three. Four. Five. Six. Seven. Eight. Nine. Ten.".

(** A file system without files and a logger whose write succeeds. *)
Definition noFiles : FileHandler.FileSystem :=
  {| FileHandler.readFile := fun _ => Err (lit "ENOENT: no such file") |}.

Definition quietLogger : Logger :=
  {| logSummaryProcess := fun _ _ => Ok (lit "/logs/summary/session.log") |}.

(** The text handed to [summaryText] as it is, without constraint. *)
Definition plainText (text : str) : SummaryTextParams :=
  {| Summary.input_text := text; Summary.is_file_path := None;
     constraint_type := None; constraint_value := None |}.

(** A document whose second and fourth sentences have the same text. *)
Definition repeatedSentence : str := lit "A. B. A. B.".

(** A transcript of two lines, with the default thresholds spelled out. *)
Definition transcript (line1 line2 : string) : FormatTranscriptParams :=
  {| Formatting.input_text := lit line1 ++ [LF] ++ lit line2;
     Formatting.is_file_path := None;
     Formatting.paragraph_gap := Some 8; Formatting.line_gap := Some 4 |}.

(** The shape of a match of the extractor: a run without terminator and
    the run of terminators behind it, neither of them empty. *)
Definition sentence_shape (s : str) : Prop :=
  exists body marks,
    s = body ++ marks
    /\ body <> [] /\ terminator_free body
    /\ marks <> [] /\ terminators marks.

(** A line that carries a time stamp somewhere. *)
Definition stamped (line : str) : bool :=
  match matchTimestamp line with
  | Some _ => true
  | None => false
  end.

(** A number below 100 in two digits, and the time stamp of a line. *)
Definition twoDigits (n : N) : str := [(48 + n / 10)%N; (48 + n mod 10)%N].

Definition stamp (hours minutes seconds : N) : str :=
  [91%N] ++ twoDigits hours ++ [58%N] ++ twoDigits minutes ++ [58%N]
         ++ twoDigits seconds ++ [93%N].

(** The three numbers of a match of the time stamp are below 100. *)
Definition inRange (m : Z * Z * Z * str) : Prop :=
  let '(h, mi, sec, _) := m in
  (0 <= h <= 99 /\ 0 <= mi <= 99 /\ 0 <= sec <= 99)%Z.

(** Two segments, for the examples of the assembler. *)
Definition segmentAt (seconds : Z) (words : string) : Segment :=
  {| time := seconds; text := lit words |}.

(** Parameters of [formatTranscript] that name a file. *)
Definition transcriptFile (path : str) : FormatTranscriptParams :=
  {| Formatting.input_text := path; Formatting.is_file_path := Some true;
     Formatting.paragraph_gap := None; Formatting.line_gap := None |}.

(** The text of [toISOString] for a date in the years 0 to 9999, from
    its fields: YYYY-MM-DDTHH:MM:SS.sssZ, the seconds given by their two
    digits. *)
Definition isoString (year month day hour minute : str) (s1 s2 : char)
    (millis : str) : str :=
  year ++ [45%N] ++ month ++ [45%N] ++ day ++ [84%N] ++ hour ++ [58%N]
       ++ minute ++ [58%N] ++ [s1; s2] ++ [46%N] ++ millis ++ [90%N].

Definition digits (s : str) : Prop :=
  Forall (fun c => is_digit c = true) s.

(** A correction that comes from the dictionary: its original is a match
    of the pattern of an entry, and the rest is taken from that entry. *)
Definition fromDictionary (c : Repair.Correction) : Prop :=
  exists e,
    In e Repair.commonErrors
    /\ Repair.matchesAt (Repair.pattern e) (Repair.original c) = true
    /\ length (Repair.original c) = length (Repair.pattern e)
    /\ Repair.corrected c = Repair.replacement e
    /\ Repair.confidence c = Repair.errorConfidence e.

(** A context that quotes the original with at most 20 code units on
    either side. *)
Definition quotesOriginal (c : Repair.Correction) : Prop :=
  exists pre post,
    Repair.context c = pre ++ Repair.original c ++ post
    /\ (length pre <= 20)%nat /\ (length post <= 20)%nat.

(** The sum of the confidences of a list of corrections. *)
Definition confidenceSum (cs : list Repair.Correction) : Z :=
  fold_right Z.add 0%Z (map Repair.confidence cs).

(** [x] stands somewhere in [s]. *)
Definition occursIn (x s : str) : Prop := exists a b, s = a ++ x ++ b.

(** [m] is a match of [pattern], in any letter case. *)
Definition isMatch (pattern m : str) : Prop :=
  Repair.matchesAt pattern m = true /\ length m = length pattern.

(** What the loop of the repair keeps true of the corrections found so
    far and of the running total of their confidences. *)
Definition soundRecord (found : list Repair.Correction * Z) : Prop :=
  Forall fromDictionary (fst found)
  /\ Forall quotesOriginal (fst found)
  /\ snd found = confidenceSum (fst found).

(** A disk on which every write succeeds, and a logger of repairs that
    writes its record. *)
Definition openDisk : FileHandler.Disk :=
  {| FileHandler.dirname := fun _ => lit ".";
     FileHandler.mkdir := fun _ => Ok tt;
     FileHandler.writeFile := fun _ _ => Ok tt |}.

Definition quietRepairLogger : Repair.Logger :=
  {| Repair.logRepairProcess :=
       fun _ _ _ => Ok (lit "/logs/repairs/session.log") |}.

Definition directText (text : str) : Repair.RepairTextParams :=
  {| Repair.input_text := text; Repair.is_file_path := None |}.

(** A text without line feed. *)
Definition oneLine (s : str) : Prop := Forall (fun c => c <> LF) s.

(** A document of two sentences of more than 100 characters each. *)
Definition longDocument : str :=
  lit "The committee met on Monday morning to review the quarterly figures and agreed to publish them before the end of the week. After a long discussion about the budget the members decided to postpone the remaining items until the next regular meeting.".

(** The spacing of the subnormal doubles; every double is a multiple of
    it. *)
Definition ulp : Q := 2 ^ (-1074).

Definition representable (x : Q) : Prop := exists k : Z, x == inject_Z k * ulp.

(** The length of a JavaScript array is below [2 ^ 32]. *)
Definition arrayLength (n : nat) : Prop := (Z.of_nat n < 2 ^ 32)%Z.

(** The composite score of the specification, in exact arithmetic. *)
Definition compositeScore (i n len : nat) : Q :=
  0.7 * (1 - Qnat i / Qnat n) + 0.3 * Qmin 1 (Qnat len / 100).

(** A sentence of [n] characters, and a document of ten sentences of which
    the third, of 20 characters, and the sixth, of 90, have the same exact
    composite score, 0.62. *)
Definition sized (n : nat) : str := repeat 97%N (n - 1) ++ lit ".".

Definition unevenDocument : str :=
  concat (map sized [30; 30; 20; 30; 30; 90; 30; 30; 30; 30]%nat).

(** * Properties *)

(** ** Rounding to the nearest double

    [Double.nearest] is monotone, lands on the multiples of the quantum of the
    argument, at most half a quantum away from it, and leaves the doubles
    as they are.  The sign of a rounded difference of two doubles is the
    sign of the exact difference, which is what the comparator of the
    ranking needs. *)

Section Rounding.

Import Double.

Lemma pow2_pos (e : Z) : 0 < 2 ^ e.
Proof. apply Qpower_0_lt. reflexivity. Qed.

Lemma pow2_plus (a b : Z) : 2 ^ (a + b) == 2 ^ a * 2 ^ b.
Proof. apply Qpower_plus. discriminate. Qed.

Lemma pow2_le (a b : Z) : (a <= b)%Z -> 2 ^ a <= 2 ^ b.
Proof. intros H. apply Qpower_le_compat_l; trivial. discriminate. Qed.

Lemma pow2_lt (a b : Z) : (a < b)%Z -> 2 ^ a < 2 ^ b.
Proof. intros H. apply Qpower_lt_compat_l; trivial. reflexivity. Qed.

Lemma pow2_lt_inv (a b : Z) : 2 ^ a < 2 ^ b -> (a < b)%Z.
Proof. intros H. apply (Qpower_lt_compat_l_inv 2); trivial. reflexivity. Qed.

Lemma pow2_Z (n : Z) : (0 <= n)%Z -> inject_Z (2 ^ n) == 2 ^ n.
Proof. intros H. now rewrite Zpower_Qpower. Qed.

Lemma rne_spec (y : Q) :
  let f := Qfloor y in
  (y - inject_Z f < 1 # 2 /\ rne y = f)
  \/ (y - inject_Z f == 1 # 2 /\ (rne y = f \/ rne y = (f + 1)%Z))
  \/ (1 # 2 < y - inject_Z f /\ rne y = (f + 1)%Z).
Proof.
  intros f. unfold rne. fold f.
  destruct (Qcompare_spec (y - inject_Z f) (1 # 2)) as [H|H|H].
  - right. left. split; trivial. destruct (Z.even f); auto.
  - left. now split.
  - right. right. now split.
Qed.

Lemma floor_bounds (y : Q) :
  inject_Z (Qfloor y) <= y /\ y < inject_Z (Qfloor y) + 1.
Proof.
  split; [apply Qfloor_le|].
  pose proof (Qlt_floor y) as H. now rewrite inject_Z_plus in H.
Qed.

Lemma rne_near (y : Q) :
  y - (1 # 2) <= inject_Z (rne y) /\ inject_Z (rne y) <= y + (1 # 2).
Proof.
  destruct (floor_bounds y) as [H1 H2].
  destruct (rne_spec y) as [[H ->]|[[H [-> | ->]]|[H ->]]];
    rewrite ?inject_Z_plus; change (inject_Z 1) with 1; split; lra.
Qed.

Lemma rne_between (y : Q) :
  (Qfloor y <= rne y <= Qfloor y + 1)%Z.
Proof.
  destruct (rne_spec y) as [[H ->]|[[H [-> | ->]]|[H ->]]]; lia.
Qed.

Lemma rne_comp (y y' : Q) : y == y' -> rne y = rne y'.
Proof.
  intros H. unfold rne. rewrite (Qfloor_comp _ _ H).
  now rewrite H.
Qed.

Lemma rne_Z (k : Z) : rne (inject_Z k) = k.
Proof.
  unfold rne. rewrite Qfloor_Z.
  assert (H : inject_Z k - inject_Z k < 1 # 2) by lra.
  apply Qlt_alt in H. unfold Qcompare in *. now rewrite H.
Qed.

(** Rounding to an integer is monotone. *)
Lemma rne_mono (y y' : Q) : y <= y' -> (rne y <= rne y')%Z.
Proof.
  intros H. pose proof (Qfloor_resp_le _ _ H) as Hf.
  destruct (Z.eq_dec (Qfloor y) (Qfloor y')) as [E|E].
  - pose proof (rne_spec y) as S1. pose proof (rne_spec y') as S2.
    cbv zeta in S1, S2. rewrite <- E in S2.
    destruct S1 as [[H1 R1]|[[H1 R1]|[H1 R1]]];
      destruct S2 as [[H2 R2]|[[H2 R2]|[H2 R2]]];
      try lia; try (exfalso; lra).
    + assert (Heq : y == y') by lra.
      rewrite (rne_comp Heq). lia.
  - pose proof (rne_between y). pose proof (rne_between y'). lia.
Qed.


Lemma Zlog2_bounds (n : Z) : (0 < n)%Z ->
  inject_Z (2 ^ Z.log2 n) <= inject_Z n /\ inject_Z n < inject_Z (2 ^ (Z.log2 n + 1)).
Proof.
  intros H. destruct (Z.log2_spec n H) as [H1 H2].
  split; [now rewrite <- Zle_Qle | rewrite <- Zlt_Qlt].
  now rewrite <- Z.add_1_r in H2.
Qed.

(** [ilog2] is the binade. *)
Lemma ilog2_spec (x : Q) : 0 < x -> 2 ^ ilog2 x <= x /\ x < 2 ^ (ilog2 x + 1).
Proof.
  intros Hx. unfold ilog2.
  set (a := Z.log2 (Qnum x)). set (b := Z.log2 (Z.pos (Qden x))).
  assert (Hn : (0 < Qnum x)%Z).
  { unfold Qlt in Hx. simpl in Hx. lia. }
  destruct (Zlog2_bounds Hn) as [N1 N2]. fold a in N1, N2.
  destruct (@Zlog2_bounds (Z.pos (Qden x)) eq_refl) as [D1 D2]. fold b in D1, D2.
  assert (Ha : (0 <= a)%Z) by apply Z.log2_nonneg.
  assert (Hb : (0 <= b)%Z) by apply Z.log2_nonneg.
  rewrite pow2_Z in N1, N2, D1, D2 by lia.
  assert (Hxd : x * inject_Z (Z.pos (Qden x)) == inject_Z (Qnum x)).
  { clear. destruct x as [n d]. unfold Qeq. simpl. rewrite Pos.mul_1_r. ring. }
  pose proof (pow2_pos b) as Pb.
  assert (Up : x < 2 ^ (a - b + 1)).
  { apply (Qmult_lt_r _ _ (2 ^ b) Pb).
    rewrite <- pow2_plus. replace (a - b + 1 + b)%Z with (a + 1)%Z by lia.
    apply Qle_lt_trans with (inject_Z (Qnum x)); trivial.
    rewrite <- Hxd. apply Qmult_le_l; trivial. }
  assert (Lo : 2 ^ (a - b - 1) < x).
  { apply (Qmult_lt_r _ _ (2 ^ (b + 1)) (pow2_pos (b + 1))).
    rewrite <- pow2_plus. replace (a - b - 1 + (b + 1))%Z with a by lia.
    apply Qle_lt_trans with (inject_Z (Qnum x)); trivial.
    rewrite <- Hxd. apply Qmult_lt_l; trivial. }
  destruct (Qle_bool (2 ^ (a - b)) x) eqn:E.
  - apply Qle_bool_iff in E. now split.
  - split; [now apply Qlt_le_weak|].
    replace (a - b - 1 + 1)%Z with (a - b)%Z by lia.
    apply Qnot_le_lt. intros C. apply Qle_bool_iff in C. congruence.
Qed.

Lemma ilog2_mono (x y : Q) : 0 < x -> x <= y -> (ilog2 x <= ilog2 y)%Z.
Proof.
  intros Hx Hxy.
  destruct (ilog2_spec Hx) as [H1 _].
  destruct (@ilog2_spec y) as [_ H2]; [lra|].
  assert (H : 2 ^ ilog2 x < 2 ^ (ilog2 y + 1)) by lra.
  apply pow2_lt_inv in H. lia.
Qed.

Lemma exponent_mono (x y : Q) : 0 < x -> x <= y -> (exponent x <= exponent y)%Z.
Proof. intros Hx Hxy. pose proof (ilog2_mono Hx Hxy). unfold exponent. lia. Qed.

Lemma quantum_pos (x : Q) : 0 < quantum x.
Proof. apply pow2_pos. Qed.

Lemma scaled_le (q x : Q) (K : Z) :
  0 < q -> x <= inject_Z K * q -> inject_Z (rne (x / q)) * q <= inject_Z K * q.
Proof.
  intros Hq H. apply Qmult_le_compat_r; [|lra].
  rewrite <- Zle_Qle. rewrite <- (rne_Z K). apply rne_mono.
  now apply Qle_shift_div_r.
Qed.

Lemma scaled_ge (q x : Q) (K : Z) :
  0 < q -> inject_Z K * q <= x -> inject_Z K * q <= inject_Z (rne (x / q)) * q.
Proof.
  intros Hq H. apply Qmult_le_compat_r; [|lra].
  rewrite <- Zle_Qle. rewrite <- (rne_Z K). apply rne_mono.
  now apply Qle_shift_div_l.
Qed.

Lemma scaled_near (q x : Q) :
  0 < q ->
  x - (1 # 2) * q <= inject_Z (rne (x / q)) * q
  /\ inject_Z (rne (x / q)) * q <= x + (1 # 2) * q.
Proof.
  intros Hq. destruct (rne_near (x / q)) as [L U].
  assert (E1 : (x / q - (1 # 2)) * q == x - (1 # 2) * q) by (field; lra).
  assert (E2 : (x / q + (1 # 2)) * q == x + (1 # 2) * q) by (field; lra).
  rewrite <- E1, <- E2. split; apply Qmult_le_compat_r; lra.
Qed.

Lemma quantum_53 (e : Z) : 2 ^ (e + 1) == inject_Z (2 ^ 53) * 2 ^ (e - 52).
Proof.
  rewrite pow2_Z by lia. rewrite <- pow2_plus. now replace (53 + (e - 52))%Z with (e + 1)%Z by lia.
Qed.

Lemma quantum_52 (e : Z) : 2 ^ e == inject_Z (2 ^ 52) * 2 ^ (e - 52).
Proof.
  rewrite pow2_Z by lia. rewrite <- pow2_plus. now replace (52 + (e - 52))%Z with e by lia.
Qed.

Lemma nearest_pos_nonneg (x : Q) : 0 < x -> 0 <= nearest_pos x.
Proof.
  intros Hx. unfold nearest_pos.
  pose proof (@scaled_ge (quantum x) x 0 (quantum_pos x)) as H.
  change (inject_Z 0) with 0 in H. rewrite Qmult_0_l in H. apply H. lra.
Qed.

Lemma nearest_pos_upper (x : Q) : 0 < x -> nearest_pos x <= 2 ^ (exponent x + 1).
Proof.
  intros Hx. unfold nearest_pos, quantum. rewrite quantum_53.
  apply scaled_le; [apply pow2_pos|]. rewrite <- quantum_53.
  destruct (ilog2_spec Hx) as [_ U].
  apply Qle_trans with (2 ^ (ilog2 x + 1)); [lra|].
  apply pow2_le. unfold exponent. lia.
Qed.

Lemma nearest_pos_lower (x : Q) : 0 < x -> exponent x = ilog2 x -> 2 ^ exponent x <= nearest_pos x.
Proof.
  intros Hx He. unfold nearest_pos, quantum. rewrite (quantum_52 (exponent x)) at 1.
  apply scaled_ge; [apply pow2_pos|]. rewrite <- quantum_52.
  rewrite He. now destruct (ilog2_spec Hx).
Qed.

(** Within a binade rounding is that of the integers; across binades the
    power of two between the arguments is a double. *)
Lemma nearest_pos_mono (x y : Q) : 0 < x -> x <= y -> nearest_pos x <= nearest_pos y.
Proof.
  intros Hx Hxy. assert (Hy : 0 < y) by lra.
  pose proof (exponent_mono Hx Hxy) as He.
  destruct (Z.eq_dec (exponent x) (exponent y)) as [E|E].
  - unfold nearest_pos, quantum. rewrite E.
    apply Qmult_le_compat_r; [|apply Qlt_le_weak, pow2_pos].
    rewrite <- Zle_Qle. apply rne_mono.
    apply Qmult_le_compat_r; trivial.
    apply Qlt_le_weak, Qinv_lt_0_compat, pow2_pos.
  - apply Qle_trans with (2 ^ (exponent x + 1)); [now apply nearest_pos_upper|].
    apply Qle_trans with (2 ^ exponent y).
    + apply pow2_le. lia.
    + apply nearest_pos_lower; trivial. unfold exponent in *. lia.
Qed.

(** The error is at most half a quantum. *)
Lemma nearest_pos_near (x : Q) :
  x - (1 # 2) * quantum x <= nearest_pos x /\ nearest_pos x <= x + (1 # 2) * quantum x.
Proof. apply scaled_near, quantum_pos. Qed.

Lemma nearest_spec (x : Q) :
  (x == 0 /\ nearest x = 0)
  \/ (0 < x /\ nearest x = nearest_pos x)
  \/ (x < 0 /\ nearest x = - nearest_pos (- x)).
Proof.
  unfold nearest. destruct (Qcompare_spec x 0) as [H|H|H]; auto.
Qed.

Lemma nearest_mono (x y : Q) : x <= y -> nearest x <= nearest y.
Proof.
  intros H.
  destruct (nearest_spec x) as [[Hx ->]|[[Hx ->]|[Hx ->]]];
    destruct (nearest_spec y) as [[Hy ->]|[[Hy ->]|[Hy ->]]];
    try (exfalso; lra).
  - lra.
  - now apply nearest_pos_nonneg.
  - now apply nearest_pos_mono.
  - assert (0 <= nearest_pos (- x)) by (apply nearest_pos_nonneg; lra). lra.
  - assert (0 <= nearest_pos (- x)) by (apply nearest_pos_nonneg; lra).
    assert (0 <= nearest_pos y) by (apply nearest_pos_nonneg; lra). lra.
  - assert (nearest_pos (- y) <= nearest_pos (- x)) by (apply nearest_pos_mono; lra). lra.
Qed.

#[global] Instance nearest_comp : Proper (Qeq ==> Qeq) nearest.
Proof.
  intros x y H. apply Qle_antisym; apply nearest_mono; lra.
Qed.

Lemma quantum_ulp (x : Q) : quantum x == inject_Z (2 ^ (exponent x + 1022)) * ulp.
Proof.
  unfold quantum, ulp. assert (0 <= exponent x + 1022)%Z by (unfold exponent; lia).
  rewrite pow2_Z by trivial. rewrite <- pow2_plus.
  now replace (exponent x + 1022 + -1074)%Z with (exponent x - 52)%Z by lia.
Qed.

Lemma nearest_pos_representable (x : Q) : representable (nearest_pos x).
Proof.
  exists (rne (x / quantum x) * 2 ^ (exponent x + 1022))%Z.
  unfold nearest_pos. rewrite (quantum_ulp x) at 2. rewrite inject_Z_mult. ring.
Qed.

(** Every result is a multiple of the smallest positive double. *)
Lemma nearest_representable (x : Q) : representable (nearest x).
Proof.
  destruct (nearest_spec x) as [[Hx ->]|[[Hx ->]|[Hx ->]]].
  - exists 0%Z. ring.
  - apply nearest_pos_representable.
  - destruct (nearest_pos_representable (- x)) as [k Hk].
    exists (- k)%Z. rewrite Hk, inject_Z_opp. ring.
Qed.

Lemma nearest_ulp : nearest ulp == ulp.
Proof. vm_compute. reflexivity. Qed.

Lemma nearest_0 : nearest 0 == 0.
Proof. reflexivity. Qed.

Lemma nearest_1 : nearest 1 == 1.
Proof. vm_compute. reflexivity. Qed.

Lemma ulp_pos : 0 < ulp.
Proof. apply pow2_pos. Qed.

(** A difference of doubles does not nearest to zero: [b - a > 0] in doubles
    exactly when [a < b]. *)
Lemma sub_pos_iff (a b : Q) :
  representable a -> representable b -> (0 < sub b a <-> a < b).
Proof.
  intros [ka Ha] [kb Hb]. unfold sub. pose proof ulp_pos as U. split.
  - intros H. apply Qnot_le_lt. intros C.
    assert (R : nearest (b - a) <= nearest 0) by (apply nearest_mono; lra).
    rewrite nearest_0 in R. lra.
  - intros H. apply Qlt_le_trans with ulp; trivial.
    rewrite <- nearest_ulp. apply nearest_mono.
    assert (K : (ka < kb)%Z).
    { rewrite Zlt_Qlt. apply (Qmult_lt_r _ _ ulp U). now rewrite <- Ha, <- Hb. }
    rewrite Ha, Hb.
    assert (K' : inject_Z ka + 1 <= inject_Z kb).
    { change 1 with (inject_Z 1). rewrite <- inject_Z_plus, <- Zle_Qle. lia. }
    apply Qle_trans with ((inject_Z ka + 1) * ulp - inject_Z ka * ulp).
    + apply Qle_lteq. right. ring.
    + apply Qplus_le_l. apply Qmult_le_compat_r; lra.
Qed.

Lemma quantum_below_1 (x : Q) : 0 < x -> x < 1 -> quantum x <= 2 ^ (-53).
Proof.
  intros H0 H1. apply pow2_le.
  destruct (ilog2_spec H0) as [L _].
  assert (P : 2 ^ ilog2 x < 2 ^ 0) by (change (2 ^ 0) with 1; lra).
  apply pow2_lt_inv in P. unfold exponent. lia.
Qed.

(** Between 0 and 1 the error is at most [2 ^ (-54)]. *)
Lemma nearest_unit_near (x : Q) :
  0 <= x -> x <= 1 -> x - 2 ^ (-54) <= nearest x /\ nearest x <= x + 2 ^ (-54).
Proof.
  intros H0 H1.
  assert (P : 0 < 2 ^ (-54)) by apply pow2_pos.
  destruct (Qle_lt_or_eq _ _ H1) as [Hlt|Heq].
  - destruct (nearest_spec x) as [[Hx ->]|[[Hx ->]|[Hx _]]]; [lra| |lra].
    destruct (nearest_pos_near x) as [L U].
    pose proof (quantum_below_1 Hx Hlt) as B.
    assert (E : 2 ^ (-53) == 2 * 2 ^ (-54)) by reflexivity.
    revert P L U B E. generalize (2 ^ (-53)) (2 ^ (-54)) (quantum x) (nearest_pos x).
    intros; lra.
  - rewrite Heq, nearest_1. revert P. generalize (2 ^ (-54)). intros; lra.
Qed.

Lemma nearest_unit (x : Q) : 0 <= x -> x <= 1 -> 0 <= nearest x /\ nearest x <= 1.
Proof.
  intros H0 H1. split.
  - rewrite <- nearest_0. now apply nearest_mono.
  - rewrite <- nearest_1. now apply nearest_mono.
Qed.

End Rounding.

Example well_known_doubles :
  Double.literal 0.7 == 3152519739159347 # 4503599627370496
  /\ Double.literal 0.3 == 5404319552844595 # 18014398509481984
  /\ Double.add (Double.literal 0.1) (Double.literal 0.2)
     == 1351079888211149 # 4503599627370496
  /\ ~ Double.add (Double.literal 0.1) (Double.literal 0.2)
       == Double.literal 0.3.
Proof.
  repeat split; try (vm_compute; reflexivity).
  vm_compute. discriminate.
Qed.


(** ** The Sentence Extractor *)


Section Extractor.


Lemma terminator_free_rev (cur : str) :
  terminator_free cur -> terminator_free (rev cur).
Proof. apply Forall_rev. Qed.

Lemma matchSentences_go_covers (s : str) :
  forall st cur, covers st cur s.
Proof.
  induction s as [|c s IH]; intros st cur.
  - destruct st; simpl.
    + exists [], []. repeat split; constructor.
    + intros Hcur. exists (rev cur). split.
      * now rewrite app_nil_r.
      * now apply terminator_free_rev.
    + exists []. split; [now rewrite !app_nil_r | constructor].
  - destruct st; simpl; destruct (is_terminator c) eqn:Hc.
    + destruct (IH Skipping []) as (lead & tail & E & Hl & Ht).
      exists (c :: lead), tail. repeat split; trivial.
      * simpl. now f_equal.
      * now constructor.
    + destruct (IH InBody [c]) as (tail & E & Ht).
      { now constructor. }
      exists [], tail. repeat split; trivial. constructor.
    + intros Hcur.
      destruct (IH InTerminators (c :: cur)) as (tail & E & Ht).
      exists tail. split; trivial.
      rewrite <- E. simpl. now rewrite <- app_assoc.
    + intros Hcur.
      destruct (IH InBody (c :: cur)) as (tail & E & Ht).
      { now constructor. }
      exists tail. split; trivial.
      rewrite <- E. simpl. now rewrite <- app_assoc.
    + destruct (IH InTerminators (c :: cur)) as (tail & E & Ht).
      exists tail. split; trivial.
      rewrite <- E. simpl. now rewrite <- app_assoc.
    + destruct (IH InBody [c]) as (tail & E & Ht).
      { now constructor. }
      exists tail. split; trivial.
      simpl. rewrite <- app_assoc. f_equal. exact E.
Qed.


Lemma matchSentences_go_ends (s : str) :
  forall st cur,
    (st = InTerminators -> ends_with_terminator (rev cur)) ->
    Forall ends_with_terminator (matchSentences_go st cur s).
Proof.
  induction s as [|c s IH]; intros st cur Hcur.
  - destruct st; simpl; auto.
  - assert (Hpush : forall cur', is_terminator c = true ->
                      ends_with_terminator (rev (c :: cur'))).
    { intros cur' Hc. exists (rev cur'), c. now split. }
    destruct st; simpl; destruct (is_terminator c) eqn:Hc;
      try (apply IH; intros E; try discriminate E; now apply Hpush).
    constructor; [now apply Hcur | apply IH; discriminate].
Qed.

Lemma matchSentences_ends (text : str) :
  Forall ends_with_terminator (matchSentences text).
Proof. apply matchSentences_go_ends. discriminate. Qed.

End Extractor.

(** C9, as the extractor has it.  The sentences are consecutive pieces of
    the text, in order and without overlap; what they leave out is a run of
    terminators in front of the first one and a run without terminator
    behind the last one, so they cover the text when both runs are empty. *)
Theorem sentences_partition_covered_part (text : str) :
  exists lead tail : str,
    text = lead ++ concat (matchSentences text) ++ tail
    /\ terminators lead /\ terminator_free tail
    /\ Forall ends_with_terminator (matchSentences text)
    /\ (concat (matchSentences text) = text <-> lead = [] /\ tail = []).
Proof.
  destruct (matchSentences_go_covers text Skipping [])
    as (lead & tail & E & Hl & Ht).
  fold (matchSentences text) in E.
  exists lead, tail.
  split; [exact E|]. split; [exact Hl|]. split; [exact Ht|].
  split; [apply matchSentences_ends|]. split.
  - intros H. apply (f_equal (@length char)) in E.
    rewrite !length_app, H in E.
    destruct lead, tail; simpl in E; try lia. now split.
  - intros [-> ->]. rewrite E at 2. now rewrite app_nil_r.
Qed.

(** C9 as stated fails: a text without terminator has no sentence at all,
    so the sentences do not cover it. *)
Lemma sentences_do_not_cover_unterminated_text :
  matchSentences (lit "no terminator here") = []
  /\ concat (matchSentences (lit "no terminator here"))
     <> lit "no terminator here".
Proof. split; [reflexivity | discriminate]. Qed.

(** ** The Importance Scorer *)

Section Scorer.

Lemma nth_error_mapi_from (A B : Type) (f : A -> nat -> B) (l : list A) :
  forall k i,
    nth_error (mapi_from f k l) i
    = option_map (fun x => f x (k + i)%nat) (nth_error l i).
Proof.
  induction l as [|x l IH]; intros k [|i]; simpl; trivial.
  - now rewrite Nat.add_0_r.
  - rewrite IH. now rewrite Nat.add_succ_comm.
Qed.

Lemma length_mapi_from (A B : Type) (f : A -> nat -> B) (l : list A) :
  forall k, length (mapi_from f k l) = length l.
Proof. induction l; intros; simpl; auto. Qed.

Lemma Qnat_lt (a b : nat) : (a < b)%nat -> Qnat a < Qnat b.
Proof.
  intros H. unfold Qnat. rewrite <- Zlt_Qlt. lia.
Qed.

Lemma Qnat_le (a b : nat) : (a <= b)%nat -> Qnat a <= Qnat b.
Proof.
  intros H. unfold Qnat. rewrite <- Zle_Qle. lia.
Qed.

Import Double.

Local Notation "'eps'" := (1 # 18014398509481984).

Lemma nearest_unit_eps (x : Q) :
  0 <= x -> x <= 1 -> x - eps <= nearest x /\ nearest x <= x + eps.
Proof. intros H0 H1. exact (nearest_unit_near H0 H1). Qed.

Lemma fraction_bounds (i n : nat) :
  (i < n)%nat ->
  0 <= Qnat i / Qnat n /\ Qnat i / Qnat n + / Qnat n <= 1 /\ 0 < / Qnat n.
Proof.
  intros H.
  assert (Hn : 0 < Qnat n) by (apply (Qnat_lt (a := 0)); lia).
  assert (Hi : 0 <= Qnat i) by (apply (Qnat_le (a := 0)); lia).
  assert (Hs : Qnat i + 1 <= Qnat n).
  { unfold Qnat. change 1 with (inject_Z 1).
    rewrite <- inject_Z_plus, <- Zle_Qle. lia. }
  split; [|split].
  - apply Qle_shift_div_l; trivial; lra.
  - assert (E : Qnat i / Qnat n + / Qnat n == (Qnat i + 1) / Qnat n)
      by (field; lra).
    rewrite E. apply Qle_shift_div_r; trivial. lra.
  - now apply Qinv_lt_0_compat.
Qed.

Lemma fraction_step (i j n : nat) :
  (i < j)%nat -> (0 < n)%nat -> Qnat i / Qnat n + / Qnat n <= Qnat j / Qnat n.
Proof.
  intros H Hn.
  assert (Hq : 0 < Qnat n) by (apply (Qnat_lt (a := 0)); lia).
  assert (Hs : Qnat i + 1 <= Qnat j).
  { unfold Qnat. change 1 with (inject_Z 1).
    rewrite <- inject_Z_plus, <- Zle_Qle. lia. }
  assert (E : Qnat i / Qnat n + / Qnat n == (Qnat i + 1) / Qnat n)
    by (field; lra).
  rewrite E. unfold Qdiv. apply Qmult_le_compat_r; trivial.
  apply Qlt_le_weak. now apply Qinv_lt_0_compat.
Qed.

Lemma arrayLength_inv (n : nat) :
  (0 < n)%nat -> arrayLength n -> (1 # 4294967296) <= / Qnat n.
Proof.
  intros Hn H. unfold arrayLength in H.
  assert (Hq : 0 < Qnat n) by (apply (Qnat_lt (a := 0)); lia).
  rewrite Zlt_Qlt in H. fold (Qnat n) in H.
  change (inject_Z (2 ^ 32)) with 4294967296 in H.
  apply Qle_shift_inv_l; trivial. lra.
Qed.

Lemma positionScore_near (i n : nat) :
  (i < n)%nat ->
  0 <= positionScore i n /\ positionScore i n <= 1
  /\ 1 - Qnat i / Qnat n - 2 * eps <= positionScore i n
  /\ positionScore i n <= 1 - Qnat i / Qnat n + 2 * eps.
Proof.
  intros H. destruct (fraction_bounds H) as (A0 & A1 & An).
  unfold positionScore, sub, div.
  assert (A1' : Qnat i / Qnat n <= 1) by lra.
  destruct (nearest_unit A0 A1') as [R0 R1].
  destruct (nearest_unit_eps A0 A1') as [E0 E1].
  assert (B0 : 0 <= 1 - nearest (Qnat i / Qnat n)) by lra.
  assert (B1 : 1 - nearest (Qnat i / Qnat n) <= 1) by lra.
  destruct (nearest_unit B0 B1) as [S0 S1].
  destruct (nearest_unit_eps B0 B1) as [F0 F1].
  repeat split; lra.
Qed.

Lemma positionScore_decreasing (n i j : nat) :
  arrayLength n ->
  (i < j)%nat -> (j < n)%nat -> positionScore j n < positionScore i n.
Proof.
  intros HN Hij Hjn.
  assert (Hin : (i < n)%nat) by lia.
  destruct (positionScore_near Hin) as (_ & _ & L & _).
  destruct (positionScore_near Hjn) as (_ & _ & _ & U).
  assert (Hn : (0 < n)%nat) by lia.
  pose proof (fraction_step Hij Hn) as Hstep.
  pose proof (arrayLength_inv Hn HN) as Hinv.
  lra.
Qed.

Lemma positionScore_antitone (n i j : nat) :
  (i <= j)%nat -> positionScore j n <= positionScore i n.
Proof.
  intros Hij. unfold positionScore, sub, div.
  apply nearest_mono. apply Qplus_le_r, Qopp_le_compat.
  apply nearest_mono. unfold Qdiv. apply Qmult_le_compat_r.
  - now apply Qnat_le.
  - apply Qinv_le_0_compat. apply (Qnat_le (a := 0)). lia.
Qed.

Lemma lengthScore_cap (s : str) :
  lengthScore s <= 1 /\ ((100 <= length s)%nat -> lengthScore s == 1).
Proof.
  unfold lengthScore. split.
  - apply Q.le_min_l.
  - intros H. apply Q.min_l. unfold div.
    rewrite <- nearest_1 at 1. apply nearest_mono.
    apply Qle_shift_div_l; [reflexivity|].
    rewrite Qmult_1_l. apply (Qnat_le (a := 100)). exact H.
Qed.

Lemma lengthScore_near (s : str) :
  0 <= lengthScore s
  /\ Qmin 1 (Qnat (length s) / 100) - eps <= lengthScore s
  /\ lengthScore s <= Qmin 1 (Qnat (length s) / 100) + eps.
Proof.
  assert (H0 : 0 <= Qnat (length s) / 100).
  { apply Qle_shift_div_l; [reflexivity|]. rewrite Qmult_0_l.
    apply (Qnat_le (a := 0)). lia. }
  destruct (le_lt_dec 100 (length s)) as [H|H].
  - rewrite (proj2 (lengthScore_cap s) H).
    assert (E : Qmin 1 (Qnat (length s) / 100) == 1).
    { apply Q.min_l. apply Qle_shift_div_l; [reflexivity|].
      rewrite Qmult_1_l. now apply (Qnat_le (a := 100)). }
    rewrite E. repeat split; lra.
  - assert (H1 : Qnat (length s) / 100 <= 1).
    { apply Qle_shift_div_r; [reflexivity|]. rewrite Qmult_1_l.
      apply (Qnat_le (b := 100)). lia. }
    destruct (nearest_unit H0 H1) as [R0 R1].
    destruct (nearest_unit_eps H0 H1) as [E0 E1].
    unfold lengthScore, div.
    rewrite (Q.min_r _ _ H1), (Q.min_r _ _ R1). repeat split; lra.
Qed.

Lemma weights :
  (1 # 2) <= literal 0.7 /\ literal 0.7 <= 1
  /\ 0.7 - eps <= literal 0.7 /\ literal 0.7 <= 0.7 + eps
  /\ 0 <= literal 0.3 /\ literal 0.3 <= 1
  /\ 0.3 - eps <= literal 0.3 /\ literal 0.3 <= 0.3 + eps
  /\ nearest (literal 0.7) <= literal 0.7
  /\ nearest (literal 0.3) <= literal 0.3
  /\ literal 0.7 + literal 0.3 <= 1.
Proof.
  repeat split; apply Qle_bool_iff; vm_compute; reflexivity.
Qed.

Lemma mul_near (p P c C e : Q) :
  0 <= p -> p <= 1 -> 0 <= P -> P <= 1 -> 0 <= c -> c <= 1 -> 0 <= e ->
  P - e <= p -> p <= P + e -> C - eps <= c -> c <= C + eps ->
  0 <= mul p c /\ mul p c <= nearest c
  /\ P * C - (e + 2 * eps) <= mul p c /\ mul p c <= P * C + (e + 2 * eps).
Proof.
  intros p0 p1 P0 P1 c0 c1 e0 L U Lc Uc. unfold mul.
  assert (M0 : 0 <= p * c) by nra.
  assert (M1 : p * c <= c) by nra.
  assert (M1' : p * c <= 1) by lra.
  destruct (nearest_unit M0 M1') as [R0 _].
  destruct (nearest_unit_eps M0 M1') as [E0 E1].
  assert (D0 : P * C - (e + eps) <= p * c) by nra.
  assert (D1 : p * c <= P * C + (e + eps)) by nra.
  repeat split; trivial; try lra.
  now apply nearest_mono.
Qed.

Lemma score_near (i n : nat) (s : str) :
  (i < n)%nat ->
  let composite :=
    add (mul (positionScore i n) (literal 0.7))
        (mul (lengthScore s) (literal 0.3)) in
  0 <= composite /\ composite <= 1
  /\ compositeScore i n (length s) - 8 * eps <= composite
  /\ composite <= compositeScore i n (length s) + 8 * eps.
Proof.
  intros H composite.
  destruct (positionScore_near H) as (p0 & p1 & pL & pU).
  destruct (fraction_bounds H) as (A0 & A1 & An).
  destruct (lengthScore_near s) as (l0 & lL & lU).
  pose proof (proj1 (lengthScore_cap s)) as l1.
  destruct weights as (w7h & w71 & w7L & w7U & w30 & w31 & w3L & w3U & r7 & r3 & w).
  assert (L0 : 0 <= Qmin 1 (Qnat (length s) / 100)).
  { apply Q.min_glb; [lra|]. apply Qle_shift_div_l; [reflexivity|].
    rewrite Qmult_0_l. apply (Qnat_le (a := 0)). lia. }
  assert (L1 : Qmin 1 (Qnat (length s) / 100) <= 1) by apply Q.le_min_l.
  destruct (@mul_near (positionScore i n) (1 - Qnat i / Qnat n)
                      (literal 0.7) 0.7 (2 * eps))
    as (m0 & m1 & mL & mU); try lra.
  destruct (@mul_near (lengthScore s) (Qmin 1 (Qnat (length s) / 100))
                      (literal 0.3) 0.3 eps)
    as (k0 & k1 & kL & kU); try lra.
  subst composite. unfold add.
  set (m := mul (positionScore i n) (literal 0.7)) in *.
  set (k := mul (lengthScore s) (literal 0.3)) in *.
  assert (S0 : 0 <= m + k) by lra.
  assert (S1 : m + k <= 1) by lra.
  destruct (nearest_unit S0 S1) as [R0 R1].
  destruct (nearest_unit_eps S0 S1) as [E0 E1].
  unfold compositeScore.
  repeat split; trivial; lra.
Qed.

Lemma score_positive (i n : nat) (s : str) :
  arrayLength n -> (i < n)%nat ->
  0 < add (mul (positionScore i n) (literal 0.7))
          (mul (lengthScore s) (literal 0.3)).
Proof.
  intros HN H.
  destruct (score_near s H) as (_ & _ & L & _).
  destruct (fraction_bounds H) as (A0 & A1 & An).
  assert (Hn : (0 < n)%nat) by lia.
  pose proof (arrayLength_inv Hn HN) as Hinv.
  assert (L0 : 0 <= Qmin 1 (Qnat (length s) / 100)).
  { apply Q.min_glb; [lra|]. apply Qle_shift_div_l; [reflexivity|].
    rewrite Qmult_0_l. apply (Qnat_le (a := 0)). lia. }
  unfold compositeScore in L. lra.
Qed.

Lemma scores_representable (sentences : list str) :
  Forall (fun item => representable (score item)) (sentenceScores sentences).
Proof.
  apply Forall_forall. intros item Hitem.
  apply In_nth_error in Hitem. destruct Hitem as [i Hi].
  unfold sentenceScores, mapi in Hi. rewrite nth_error_mapi_from in Hi.
  destruct (nth_error sentences i) as [s|]; [|discriminate].
  injection Hi as <-. apply nearest_representable.
Qed.

End Scorer.

(** C7.  The sentence at index [i] of [N] gets the composite score
    0.7 * (1 - i/N) + 0.3 * min(1, length/100), each operation rounded to the
    nearest double, which is within [2 ^ (-51)] of the exact value; the
    position score is strictly decreasing in the index; the length score
    never exceeds 1 and is 1 from 100 characters on. *)
Theorem importance_score_formula (sentences : list str) (i : nat) (s : str)
    (Hi : nth_error sentences i = Some s)
    (HN : arrayLength (length sentences)) :
  let N := length sentences in
  (exists item,
      nth_error (sentenceScores sentences) i = Some item
      /\ sentence item = s
      /\ score item
         = Double.add
             (Double.mul (Double.sub 1 (Double.div (Qnat i) (Qnat N)))
                         (Double.literal 0.7))
             (Double.mul (Qmin 1 (Double.div (Qnat (length s)) 100))
                         (Double.literal 0.3))
      /\ Qabs (score item - compositeScore i N (length s)) <= 2 ^ (-51))
  /\ (forall j k, (j < k)%nat -> (k < N)%nat ->
        positionScore k N < positionScore j N)
  /\ lengthScore s <= 1
  /\ ((100 <= length s)%nat -> lengthScore s == 1).
Proof.
  intros N. split; [|split].
  - unfold sentenceScores, mapi. rewrite nth_error_mapi_from, Hi.
    cbn [option_map Nat.add].
    eexists. split; [reflexivity|]. split; [reflexivity|]. cbn [score].
    split; [reflexivity|].
    assert (Hlt : (i < N)%nat) by (apply nth_error_Some; congruence).
    subst N. destruct (score_near s Hlt) as (_ & _ & L & U).
    apply Qabs_Qle_condition.
    change (2 ^ (-51)) with (1 # 2251799813685248).
    split; lra.
  - intros j k. now apply positionScore_decreasing.
  - apply lengthScore_cap.
Qed.

Lemma importance_score_formula_witness :
  exists item,
    nth_error (sentenceScores [lit "One."; lit " Two."]) 1 = Some item
    /\ sentence item = lit " Two."
    /\ score item
       = Double.add
           (Double.mul (Double.sub 1 (Double.div (Qnat 1) (Qnat 2)))
                       (Double.literal 0.7))
           (Double.mul (Qmin 1 (Double.div (Qnat 5) 100)) (Double.literal 0.3))
    /\ Qabs (score item - compositeScore 1 2 5) <= 2 ^ (-51).
Proof.
  refine (proj1 (@importance_score_formula
                   [lit "One."; lit " Two."] 1 (lit " Two.") eq_refl _)).
  reflexivity.
Defined.

(** ** The Constraint Resolver *)

Section Resolver.


Lemma truthy_zero (v : Q) : v == 0 -> truthy v = false.
Proof.
  intros H. unfold truthy. now rewrite (Qeq_eq_bool _ _ H).
Qed.

End Resolver.



(** C10.  A constraint value of zero counts as no value: the budget is the
    30% default of the type, and the summary is the one without a value. *)
Theorem zero_constraint_value_is_absent (ct : ConstraintType) (v : Q)
    (totalWords totalChars : nat) (Hv : v == 0) :
  targetLength (Some ct) (Some v) totalWords totalChars
  = targetLength (Some ct) None totalWords totalChars
  /\ targetLength (Some ct) (Some v) totalWords totalChars
     == 0.3 * match ct with
              | ByChars => Qnat totalChars
              | _ => Qnat totalWords
              end
  /\ (forall text, fst (summarize text (Some ct) (Some v))
                   = fst (summarize text (Some ct) None)).
Proof.
  assert (E : forall w c, targetLength (Some ct) (Some v) w c
                          = targetLength (Some ct) None w c).
  { intros w c. unfold targetLength, ifValue. rewrite (truthy_zero Hv).
    now destruct ct. }
  split; [apply E|]. split.
  - rewrite E. destruct ct; simpl; ring.
  - intros text. unfold summarize. rewrite E.
    destruct (select _ _ _ _ _) as [sel cur]. reflexivity.
Qed.

Lemma zero_constraint_value_is_absent_witness :
  targetLength (Some ByWords) (Some 0) 40 200 == 0.3 * Qnat 40.
Proof.
  exact (proj1 (proj2 (zero_constraint_value_is_absent ByWords 40 200 (Qeq_refl 0)))).
Defined.

(** ** The Text Assembler *)

Section Assembler.

Variables paragraph_gap line_gap : Q.

(** Past the first turn, the four inline branches included, a turn appends
    the break of the gap and the text. *)
Lemma assembleStep_later (i : nat) (segment : Segment) (formattedText : str)
    (lastTime : Z) :
  i <> 0%nat ->
  assembleStep paragraph_gap line_gap i segment (formattedText, lastTime)
  = (formattedText
       ++ breakFor paragraph_gap line_gap (time segment - lastTime)
       ++ text segment,
     time segment).
Proof.
  intros Hi. unfold assembleStep, breakFor.
  destruct (Nat.eqb_spec i 0) as [E|_]; [contradiction|].
  destruct (Qltb paragraph_gap _); trivial.
  destruct (Qltb line_gap _); trivial.
  destruct (endsWithSentenceMarker formattedText); trivial.
  destruct (isChar _ 44 || isChar _ 59 || isChar _ 58)%N; trivial.
  destruct (startsWithLowerCase _); trivial.
Qed.

Lemma assembleFrom_app (l1 l2 : list Segment) :
  forall i state,
    assembleFrom paragraph_gap line_gap i (l1 ++ l2) state
    = assembleFrom paragraph_gap line_gap (i + length l1) l2
        (assembleFrom paragraph_gap line_gap i l1 state).
Proof.
  induction l1 as [|s l1 IH]; intros i state; simpl.
  - now rewrite Nat.add_0_r.
  - rewrite IH. now rewrite <- Nat.add_succ_comm.
Qed.

Lemma assemble_snoc (before : list Segment) (next : Segment) :
  before <> [] ->
  assemble paragraph_gap line_gap (before ++ [next])
  = (formatSegments paragraph_gap line_gap before
       ++ breakFor paragraph_gap line_gap
            (time next - snd (assemble paragraph_gap line_gap before))
       ++ text next,
     time next).
Proof.
  intros Hne. unfold formatSegments, assemble.
  rewrite assembleFrom_app. simpl.
  destruct (assembleFrom _ _ 0 before _) as [formattedText lastTime] eqn:E.
  apply assembleStep_later. destruct before; [contradiction | discriminate].
Qed.

Lemma assemble_lastTime (before : list Segment) (previous : Segment) :
  snd (assemble paragraph_gap line_gap (before ++ [previous])) = time previous.
Proof.
  unfold assemble. rewrite assembleFrom_app. simpl.
  unfold assembleStep. now destruct (assembleFrom _ _ 0 before _).
Qed.

Lemma assembleFrom_simplified (segments : list Segment) :
  forall i formattedText lastTime,
    i <> 0%nat ->
    fst (assembleFrom paragraph_gap line_gap i segments
           (formattedText, lastTime))
    = simplifiedFrom paragraph_gap line_gap lastTime formattedText segments.
Proof.
  induction segments as [|s l IH]; intros i formattedText lastTime Hi.
  - reflexivity.
  - cbn [assembleFrom simplifiedFrom].
    rewrite (assembleStep_later _ _ _ Hi). now apply IH.
Qed.

Lemma formatSegments_simplified (segments : list Segment) :
  formatSegments paragraph_gap line_gap segments
  = simplifiedAssembler paragraph_gap line_gap segments.
Proof.
  destruct segments as [|first rest]; [reflexivity|].
  unfold formatSegments, assemble. simpl.
  now apply assembleFrom_simplified.
Qed.

Lemma simplifiedFrom_extends (segments : list Segment) :
  forall lastTime formattedText,
    exists more,
      simplifiedFrom paragraph_gap line_gap lastTime formattedText segments
      = formattedText ++ more.
Proof.
  induction segments as [|s l IH]; intros lastTime formattedText; simpl.
  - exists []. now rewrite app_nil_r.
  - destruct (IH (time s)
                 (formattedText
                    ++ breakFor paragraph_gap line_gap (time s - lastTime)
                    ++ text s)) as [more E].
    rewrite E. rewrite <- !app_assoc. eauto.
Qed.

Lemma breakFor_cases (gap : Z) :
  breakFor paragraph_gap line_gap gap = [LF; LF]
  \/ breakFor paragraph_gap line_gap gap = [LF]
  \/ breakFor paragraph_gap line_gap gap = lit " ".
Proof.
  unfold breakFor.
  destruct (Qltb paragraph_gap _); auto.
  destruct (Qltb line_gap _); auto.
Qed.

End Assembler.

Lemma Qltb_lt (x y : Q) : Qltb x y = true <-> x < y.
Proof.
  unfold Qltb. rewrite negb_true_iff. split.
  - intros H. apply Qnot_le_lt. intros Hle.
    apply Qle_bool_iff in Hle. congruence.
  - intros H. destruct (Qle_bool y x) eqn:E; trivial.
    apply Qle_bool_iff in E. exfalso. exact (Qlt_not_le _ _ H E).
Qed.

Lemma Qltb_not_lt (x y : Q) : Qltb x y = false <-> ~ x < y.
Proof.
  rewrite <- Qltb_lt. destruct (Qltb x y); split; congruence.
Qed.

(** C5.  The first segment is emitted as it is, without a break in front.
    Behind a segment [previous], the next segment is appended after a blank
    line when its gap exceeds [paragraph_gap], else after a line break when
    the gap exceeds [line_gap], else after a single space; [lastTime] is the
    time of the segment just read; the thresholds default to 8 and 4. *)
Theorem text_assembler_breaks (paragraph_gap line_gap : Q)
    (before : list Segment) (previous next : Segment) :
  let read := before ++ [previous] in
  let gap := inject_Z (time next - time previous) in
  let soFar := formatSegments paragraph_gap line_gap read in
  let out := formatSegments paragraph_gap line_gap (read ++ [next]) in
  (forall first, formatSegments paragraph_gap line_gap [first] = text first)
  /\ (forall first rest, exists more,
        formatSegments paragraph_gap line_gap (first :: rest)
        = text first ++ more)
  /\ snd (assemble paragraph_gap line_gap read) = time previous
  /\ snd (assemble paragraph_gap line_gap (read ++ [next])) = time next
  /\ (paragraph_gap < gap -> out = soFar ++ [LF; LF] ++ text next)
  /\ (~ paragraph_gap < gap -> line_gap < gap ->
      out = soFar ++ [LF] ++ text next)
  /\ (~ paragraph_gap < gap -> ~ line_gap < gap ->
      out = soFar ++ lit " " ++ text next)
  /\ (forall fs input file,
        formatTranscript fs
          {| Formatting.input_text := input; Formatting.is_file_path := file;
             Formatting.paragraph_gap := None; Formatting.line_gap := None |}
        = formatTranscript fs
            {| Formatting.input_text := input; Formatting.is_file_path := file;
               Formatting.paragraph_gap := Some 8;
               Formatting.line_gap := Some 4 |}).
Proof.
  intros read gap soFar out.
  assert (Hread : read <> []) by (subst read; now destruct before).
  assert (Hout : out = soFar ++ breakFor paragraph_gap line_gap
                                  (time next - time previous) ++ text next).
  { subst out soFar.
    unfold formatSegments at 1. rewrite (assemble_snoc _ _ _ Hread). simpl.
    subst read. now rewrite assemble_lastTime. }
  split; [reflexivity|]. split.
  { intros first rest. rewrite formatSegments_simplified.
    apply simplifiedFrom_extends. }
  split; [apply assemble_lastTime|].
  split; [apply assemble_lastTime|].
  unfold breakFor in Hout. fold gap in Hout.
  split; [|split; [|split]].
  - intros H. apply Qltb_lt in H. now rewrite H in Hout.
  - intros H1 H2. apply Qltb_not_lt in H1. apply Qltb_lt in H2.
    now rewrite H1, H2 in Hout.
  - intros H1 H2. apply Qltb_not_lt in H1. apply Qltb_not_lt in H2.
    now rewrite H1, H2 in Hout.
  - reflexivity.
Qed.

Lemma text_assembler_breaks_witness :
  formatSegments 8 4
    [{| time := 1; text := lit "Hello there." |};
     {| time := 12; text := lit "Next paragraph." |}]
  = lit "Hello there." ++ [LF; LF] ++ lit "Next paragraph.".
Proof.
  pose proof (text_assembler_breaks 8 4 []
                {| time := 1; text := lit "Hello there." |}
                {| time := 12; text := lit "Next paragraph." |}) as T.
  simpl in T.
  apply T. reflexivity.
Defined.

(** C8.  With its four inline branches, the Text Assembler computes what the
    assembler with the single-space join computes, on every input. *)
Theorem inline_branches_are_one (paragraph_gap line_gap : Q)
    (segments : list Segment) :
  formatSegments paragraph_gap line_gap segments
  = simplifiedAssembler paragraph_gap line_gap segments.
Proof. apply formatSegments_simplified. Qed.

(** ** Tokens *)

Section Tokens.

Lemma filter_cons_app (A : Type) (f : A -> bool) (x : A) (l : list A) :
  filter f (x :: l) = filter f [x] ++ filter f l.
Proof. simpl. now destruct (f x). Qed.

(** A run of white space already open or a piece still empty: the tokens
    are the same. *)
Lemma tokens_split_go_None (s : str) :
  filter nonempty (split_go None s) = filter nonempty (split_go (Some []) s).
Proof.
  destruct s as [|c s]; simpl; trivial.
  destruct (is_space c); trivial.
Qed.

Lemma tokens_split_go_sep (a : str) (w : char) (b : str) :
  is_space w = true ->
  forall piece,
    filter nonempty (split_go piece (a ++ w :: b))
    = filter nonempty (split_go piece a) ++ filter nonempty (split_go None b).
Proof.
  intros Hw. induction a as [|c a IH]; intros piece.
  - cbn [app split_go]. rewrite Hw.
    destruct piece as [cur|]; [apply filter_cons_app | reflexivity].
  - cbn [app split_go]. destruct (is_space c), piece as [cur|];
      try apply IH.
    rewrite filter_cons_app, IH, app_assoc.
    now rewrite <- filter_cons_app.
Qed.

Lemma tokens_sep (a : str) (w : char) (b : str) :
  is_space w = true -> tokens (a ++ w :: b) = tokens a ++ tokens b.
Proof.
  intros Hw. unfold tokens, split_ws.
  rewrite (tokens_split_go_sep _ _ _ Hw). now rewrite tokens_split_go_None.
Qed.

Lemma tokens_break (paragraph_gap line_gap : Q) (gap : Z) (a b : str) :
  tokens (a ++ breakFor paragraph_gap line_gap gap ++ b) = tokens a ++ tokens b.
Proof.
  destruct (breakFor_cases paragraph_gap line_gap gap) as [E|[E|E]];
    rewrite E.
  - change (a ++ [LF; LF] ++ b) with (a ++ LF :: LF :: b).
    rewrite tokens_sep by reflexivity.
    change (LF :: b) with ([] ++ LF :: b).
    rewrite (tokens_sep [] LF b) by reflexivity. reflexivity.
  - apply tokens_sep. reflexivity.
  - apply tokens_sep. reflexivity.
Qed.

Lemma tokens_simplifiedFrom (paragraph_gap line_gap : Q)
    (segments : list Segment) :
  forall lastTime formattedText,
    tokens (simplifiedFrom paragraph_gap line_gap lastTime formattedText segments)
    = tokens formattedText ++ concat (map (fun s => tokens (text s)) segments).
Proof.
  induction segments as [|s l IH]; intros lastTime formattedText; simpl.
  - now rewrite app_nil_r.
  - rewrite IH, tokens_break. now rewrite <- app_assoc.
Qed.

End Tokens.

(** C4.  The tokens of the reconstructed text are the tokens of the segment
    texts, one segment after the other: the same tokens in the same order,
    so the same multiset, whatever the thresholds. *)
Theorem assembler_preserves_tokens (paragraph_gap line_gap : Q)
    (segments : list Segment) :
  tokens (formatSegments paragraph_gap line_gap segments)
  = concat (map (fun s => tokens (text s)) segments)
  /\ Permutation (tokens (formatSegments paragraph_gap line_gap segments))
                 (concat (map (fun s => tokens (text s)) segments)).
Proof.
  assert (E : tokens (formatSegments paragraph_gap line_gap segments)
              = concat (map (fun s => tokens (text s)) segments)).
  { rewrite formatSegments_simplified.
    destruct segments as [|first rest]; [reflexivity|].
    apply tokens_simplifiedFrom. }
  split; [exact E | rewrite E; apply Permutation_refl].
Qed.

(** ** [Array.prototype.sort] *)

Section Sort.

Variable A : Type.
Variable after : A -> A -> bool.

Lemma insert_perm (x : A) (l : list A) :
  Permutation (insert after x l) (x :: l).
Proof.
  induction l as [|y l IH]; simpl; [reflexivity|].
  destruct (after x y); [|reflexivity].
  rewrite IH. apply perm_swap.
Qed.

Lemma sort_perm (l : list A) : Permutation (JS.sort after l) l.
Proof.
  induction l as [|x l IH]; simpl; [reflexivity|].
  rewrite insert_perm. now constructor.
Qed.

Variable B : Type.
Variable f : B -> A.

Lemma map_insert (x : B) (l : list B) :
  map f (insert (fun a b => after (f a) (f b)) x l)
  = insert after (f x) (map f l).
Proof.
  induction l as [|y l IH]; simpl; trivial.
  destruct (after (f x) (f y)); simpl; now rewrite ?IH.
Qed.

Lemma map_sort (l : list B) :
  map f (JS.sort (fun a b => after (f a) (f b)) l) = JS.sort after (map f l).
Proof.
  induction l as [|x l IH]; simpl; trivial.
  now rewrite map_insert, IH.
Qed.

End Sort.

(** ** The ranking *)

Section Ranking.

Lemma byScore_lt (a b : Scored) :
  representable (score a) -> representable (score b) ->
  (byScore a b = true <-> score a < score b).
Proof.
  intros Ha Hb. unfold byScore. rewrite Qltb_lt. now apply sub_pos_iff.
Qed.

Lemma byScore_not_lt (a b : Scored) :
  representable (score a) -> representable (score b) ->
  (byScore a b = false <-> score b <= score a).
Proof.
  intros Ha Hb. rewrite <- not_true_iff_false, (@byScore_lt a b Ha Hb). split.
  - apply Qnot_lt_le.
  - intros H1 H2. exact (Qlt_not_le _ _ H2 H1).
Qed.

Lemma ranksBefore_below (x y z : nat * Scored) :
  score (snd y) <= score (snd x) -> (fst x < fst z)%nat ->
  ranksBefore y z \/ y = z -> ranksBefore x z.
Proof.
  intros Hyx Hxz Hyz.
  assert (Hz : score (snd z) <= score (snd x)).
  { destruct Hyz as [[H|[H _]]| ->]; trivial.
    - apply Qlt_le_weak. eapply Qlt_le_trans; eauto.
    - now rewrite <- H. }
  destruct (Qle_lt_or_eq _ _ Hz) as [H|H].
  - now left.
  - right. split; [now symmetry | exact Hxz].
Qed.

Lemma insert_sorted (x : nat * Scored) (l : list (nat * Scored)) :
  representable (score (snd x)) ->
  Forall (fun y => representable (score (snd y))) l ->
  StronglySorted ranksBefore l ->
  Forall (fun y => (fst x < fst y)%nat) l ->
  StronglySorted ranksBefore (insert byScoreIndexed x l).
Proof.
  intros Rx. induction l as [|y l IH]; intros Rl Hs Hx; simpl.
  - repeat constructor.
  - apply StronglySorted_inv in Hs. destruct Hs as [Hs Hy].
    apply Forall_cons_iff in Hx. destruct Hx as [Hxy Hx].
    apply Forall_cons_iff in Rl. destruct Rl as [Ry Rl].
    unfold byScoreIndexed at 1.
    destruct (byScore (snd x) (snd y)) eqn:E.
    + constructor; [now apply IH|].
      apply (Permutation_Forall (x := x :: l)).
      { symmetry. apply insert_perm. }
      constructor; trivial. left. now apply (@byScore_lt (snd x) (snd y) Rx Ry).
    + apply (@byScore_not_lt (snd x) (snd y) Rx Ry) in E.
      constructor; [now constructor|].
      constructor.
      * apply (@ranksBefore_below x y y); auto.
      * rewrite Forall_forall in *. intros z Hz.
        apply (@ranksBefore_below x y z); auto.
Qed.

Lemma indexedFrom_cons (A : Type) (k : nat) (x : A) (l : list A) :
  indexedFrom k (x :: l) = (k, x) :: indexedFrom (S k) l.
Proof. reflexivity. Qed.

Lemma indexedFrom_above (A : Type) (l : list A) :
  forall k, Forall (fun y => (k <= fst y)%nat) (indexedFrom k l).
Proof.
  induction l as [|x l IH]; intros k.
  - constructor.
  - rewrite indexedFrom_cons. constructor; [simpl; lia|].
    eapply Forall_impl; [|apply (IH (S k))]. simpl. intros; lia.
Qed.

Lemma map_snd_indexedFrom (A : Type) (l : list A) :
  forall k, map snd (indexedFrom k l) = l.
Proof.
  induction l as [|x l IH]; intros k; trivial.
  rewrite indexedFrom_cons. simpl. now rewrite IH.
Qed.

Lemma Forall_indexedFrom (A : Type) (P : A -> Prop) (l : list A) :
  Forall P l -> forall k, Forall (fun y => P (snd y)) (indexedFrom k l).
Proof.
  induction 1 as [|x l Hx Hl IH]; intros k.
  - constructor.
  - rewrite indexedFrom_cons. constructor; [exact Hx | apply IH].
Qed.

Lemma sort_indexedFrom_sorted (l : list Scored) :
  Forall (fun item => representable (score item)) l ->
  forall k,
    StronglySorted ranksBefore (JS.sort byScoreIndexed (indexedFrom k l)).
Proof.
  induction 1 as [|x l Rx Rl IH]; intros k.
  - constructor.
  - rewrite indexedFrom_cons. simpl. apply insert_sorted; [exact Rx | | |].
    + apply (Permutation_Forall (x := indexedFrom (S k) l)).
      { symmetry. apply sort_perm. }
      exact (@Forall_indexedFrom _ (fun item => representable (score item))
                                 l Rl (S k)).
    + apply IH.
    + apply (Permutation_Forall (x := indexedFrom (S k) l)).
      { symmetry. apply sort_perm. }
      eapply Forall_impl; [|apply indexedFrom_above]. simpl. intros; lia.
Qed.

(** The iteration order of the selection, with the original indexes. *)
Lemma ranking_sorted (sentences : list str) :
  exists ranked : list (nat * Scored),
    map snd ranked = JS.sort byScore (sentenceScores sentences)
    /\ Permutation ranked (indexed (sentenceScores sentences))
    /\ StronglySorted ranksBefore ranked.
Proof.
  exists (JS.sort byScoreIndexed (indexed (sentenceScores sentences))).
  split; [|split].
  - unfold byScoreIndexed. rewrite (map_sort byScore snd).
    unfold indexed. now rewrite map_snd_indexedFrom.
  - apply sort_perm.
  - apply sort_indexedFrom_sorted. apply scores_representable.
Qed.

End Ranking.

(** ** The selection loop *)

Section Selection.

Variable metric : Metric.
Variable target : Q.

Lemma Qle_bool_false (x y : Q) : Qle_bool x y = false <-> ~ x <= y.
Proof.
  rewrite <- Qle_bool_iff. destruct (Qle_bool x y); split; congruence.
Qed.

Lemma totalLength_cons (item : Scored) (items : list Scored) :
  totalLength metric (item :: items)
  = (sentenceLength metric (sentence item) + totalLength metric items)%nat.
Proof. reflexivity. Qed.

(** Once a sentence has been accepted, the loop accepts the candidates in
    front of the first one that does not fit, and nothing else. *)
Lemma select_later (items : list Scored) :
  forall selected current,
    selected <> [] ->
    exists k,
      (k <= length items)%nat
      /\ select metric target items selected current
         = (selected ++ map sentence (firstn k items),
            (current + totalLength metric (firstn k items))%nat)
      /\ (Qnat current <= target ->
          Qnat (current + totalLength metric (firstn k items)) <= target)
      /\ ((k < length items)%nat ->
          ~ Qnat (current + totalLength metric (firstn (S k) items)) <= target).
Proof.
  induction items as [|item rest IH]; intros selected current Hsel.
  - exists 0%nat. simpl. rewrite app_nil_r, Nat.add_0_r.
    repeat split; auto; lia.
  - cbn [select].
    destruct (Qle_bool (Qnat (current + sentenceLength metric (sentence item))) target)
      eqn:E.
    + destruct (IH (selected ++ [sentence item])
                   (current + sentenceLength metric (sentence item))%nat)
        as (k & Hk & Hrun & Hfit & Hstop).
      { now destruct selected. }
      exists (S k). cbn [firstn map length].
      rewrite !totalLength_cons, !Nat.add_assoc.
      split; [lia|]. split; [|split].
      * rewrite Hrun. now rewrite <- app_assoc.
      * intros _. apply Hfit. now apply Qle_bool_iff.
      * intros H. apply Hstop. lia.
    + destruct selected as [|s0 selected]; [contradiction|].
      cbn [length Nat.eqb].
      exists 0%nat. cbn [firstn map length].
      rewrite app_nil_r. unfold totalLength at 1 2. cbn [map list_sum].
      rewrite !Nat.add_0_r.
      repeat split; auto; try lia.
      intros _. rewrite totalLength_cons. unfold totalLength. cbn [map list_sum].
      rewrite Nat.add_0_r. now apply Qle_bool_false.
Qed.

(** The loop from its initial state. *)
Lemma select_greedy (items : list Scored) :
  match items with
  | [] => select metric target items [] 0 = ([], 0%nat)
  | first :: _ =>
      (~ Qnat (sentenceLength metric (sentence first)) <= target ->
       select metric target items [] 0 = ([sentence first], 0%nat))
      /\ (Qnat (sentenceLength metric (sentence first)) <= target ->
          exists k,
            (1 <= k <= length items)%nat
            /\ select metric target items [] 0
               = (map sentence (firstn k items),
                  totalLength metric (firstn k items))
            /\ Qnat (totalLength metric (firstn k items)) <= target
            /\ ((k < length items)%nat ->
                ~ Qnat (totalLength metric (firstn (S k) items)) <= target))
  end.
Proof.
  destruct items as [|first rest]; [reflexivity|].
  cbn [select]. rewrite Nat.add_0_l. split.
  - intros H. apply Qle_bool_false in H. now rewrite H.
  - intros H. pose proof H as Hb. apply Qle_bool_iff in Hb. rewrite Hb.
    destruct (@select_later rest ([] ++ [sentence first])
                (sentenceLength metric (sentence first)))
      as (k & Hk & Hrun & Hfit & Hstop).
    { discriminate. }
    exists (S k). cbn [firstn map length]. rewrite !totalLength_cons.
    split; [lia|]. split; [exact Hrun|]. split; [now apply Hfit|].
    intros Hlt. apply Hstop. lia.
Qed.

End Selection.

(** ** Counting words *)

Section Words.

Lemma split_go_nonempty (s : str) :
  forall piece, (1 <= length (split_go piece s))%nat.
Proof.
  induction s as [|c s IH]; intros piece; simpl; [lia|].
  destruct (is_space c), piece; simpl; auto with arith.
Qed.

Lemma split_go_None_le (s : str) :
  (length (split_go None s) <= length (split_go (Some []) s))%nat.
Proof.
  destruct s as [|c s]; simpl; [lia|].
  destruct (is_space c); simpl; lia.
Qed.

Lemma split_go_Some_le (s : str) :
  (length (split_go (Some []) s) <= S (length (split_go None s)))%nat.
Proof.
  destruct s as [|c s]; simpl; [lia|].
  destruct (is_space c); simpl; lia.
Qed.

Lemma split_go_sep_le (a : str) (w : char) (b : str) :
  is_space w = true ->
  forall piece,
    (length (split_go piece (a ++ w :: b))
     <= length (split_go piece a) + length (split_go (Some []) b))%nat.
Proof.
  intros Hw. induction a as [|c a IH]; intros piece.
  - cbn [app split_go]. rewrite Hw.
    pose proof (split_go_None_le b).
    destruct piece; simpl; lia.
  - cbn [app split_go].
    destruct (is_space c), piece as [cur|]; try apply IH.
    simpl. specialize (IH None). lia.
Qed.

Lemma trimStart_words (s : str) :
  (length (split_ws (trimStart s)) <= length (split_ws s))%nat.
Proof.
  unfold split_ws. induction s as [|c s IH]; [simpl; lia|].
  cbn [trimStart]. destruct (is_space c) eqn:E; [|lia].
  cbn [split_go]. rewrite E. simpl.
  pose proof (split_go_Some_le s). lia.
Qed.

Lemma trimEnd_words (s : str) :
  forall piece,
    (length (split_go piece (trimEnd s)) <= length (split_go piece s))%nat.
Proof.
  induction s as [|c s IH]; intros piece; [simpl; lia|].
  cbn [trimEnd]. destruct (trimEnd s) as [|c' t] eqn:E.
  - destruct (is_space c) eqn:Ec.
    + apply (split_go_nonempty (c :: s)).
    + cbn [split_go]. rewrite Ec.
      destruct piece; simpl; apply split_go_nonempty.
  - rewrite <- E in *. cbn [split_go]. destruct (is_space c), piece;
      cbn [length]; try apply IH; apply le_n_S, IH.
Qed.

Lemma trim_words (s : str) :
  (length (split_ws (trim s)) <= length (split_ws s))%nat.
Proof.
  unfold trim. etransitivity; [apply trimEnd_words | apply trimStart_words].
Qed.

Lemma join_words (l : list str) :
  l <> [] ->
  (length (split_ws (join (lit " ") (map Some l)))
   <= list_sum (map (fun s => length (split_ws s)) l))%nat.
Proof.
  induction l as [|x l IH]; intros Hne; [contradiction|].
  destruct l as [|y l].
  - simpl. lia.
  - change (join (lit " ") (map Some (x :: y :: l)))
      with (x ++ 32%N :: join (lit " ") (map Some (y :: l))).
    cbn [map list_sum]. unfold split_ws at 1.
    etransitivity; [apply split_go_sep_le; reflexivity|].
    apply Nat.add_le_mono_l. apply IH. discriminate.
Qed.

Lemma tokens_le_words (s : str) :
  (length (tokens s) <= length (split_ws s))%nat.
Proof. apply filter_length_le. Qed.

(** What [trim] leaves in place. *)
Lemma In_trimStart (c : char) (s : str) :
  is_space c = false -> In c s -> In c (trimStart s).
Proof.
  intros Hc. induction s as [|d s IH]; simpl; [tauto|].
  destruct (is_space d) eqn:E; [|now intros H].
  intros [->|H]; [congruence | auto].
Qed.

Lemma In_trimEnd (c : char) (s : str) :
  is_space c = false -> In c s -> In c (trimEnd s).
Proof.
  intros Hc. induction s as [|d s IH]; simpl; [tauto|].
  intros [->|H].
  - destruct (trimEnd s); [rewrite Hc|]; simpl; auto.
  - specialize (IH H). destruct (trimEnd s); [contradiction|].
    now right.
Qed.

Lemma In_trim (c : char) (s : str) :
  is_space c = false -> In c s -> In c (trim s).
Proof.
  intros Hc H. apply In_trimEnd; trivial. now apply In_trimStart.
Qed.

Lemma terminator_not_space (c : char) :
  is_terminator c = true -> is_space c = false.
Proof.
  unfold is_terminator. rewrite !orb_true_iff, !N.eqb_eq.
  intros [[->| ->]| ->]; reflexivity.
Qed.

Lemma join_head (x : str) (l : list str) :
  exists more, join (lit " ") (map Some (x :: l)) = x ++ more.
Proof.
  destruct l as [|y l].
  - exists []. simpl. now rewrite app_nil_r.
  - eexists. reflexivity.
Qed.

Lemma trim_join_nonempty (l : list str) :
  l <> [] -> Forall ends_with_terminator l ->
  trim (join (lit " ") (map Some l)) <> [].
Proof.
  intros Hne Hl. destruct l as [|x l]; [contradiction|].
  apply Forall_inv in Hl. destruct Hl as (body & c & -> & Hc).
  destruct (join_head (body ++ [c]) l) as [more E].
  intros E0. apply (in_nil (a := c)). rewrite <- E0.
  apply In_trim; [now apply terminator_not_space|].
  unfold str in *. rewrite E. rewrite !in_app_iff. simpl. tauto.
Qed.

End Words.

(** ** The Order Restorer *)

Section Restore.

Lemma str_eqb_eq (a b : str) : str_eqb a b = true <-> a = b.
Proof.
  unfold str_eqb. destruct (list_eq_dec N.eq_dec a b); split; congruence.
Qed.

Lemma findIndex_from_found (s : str) (sentences : list str) :
  forall k,
    In s sentences ->
    exists i,
      findIndex_from (fun x => str_eqb x s) k sentences = (k + Z.of_nat i)%Z
      /\ nth_error sentences i = Some s.
Proof.
  induction sentences as [|x l IH]; intros k Hin; [contradiction|].
  cbn [findIndex_from]. destruct (str_eqb x s) eqn:E.
  - apply str_eqb_eq in E. subst x. exists 0%nat. split; [simpl; lia | reflexivity].
  - destruct Hin as [->|Hin].
    + assert (str_eqb s s = true) by now apply str_eqb_eq. congruence.
    + destruct (IH (k + 1)%Z Hin) as (i & Hi & Hn).
      exists (S i). split; [rewrite Hi; lia | exact Hn].
Qed.

Lemma get_findIndex (s : str) (sentences : list str) :
  In s sentences ->
  get sentences (findIndex (fun x => str_eqb x s) sentences) = Some s.
Proof.
  intros Hin. unfold findIndex, get.
  destruct (findIndex_from_found s sentences 0 Hin) as (i & -> & Hn).
  destruct (Z.ltb_spec (0 + Z.of_nat i) 0); [lia|].
  now rewrite Z.add_0_l, Nat2Z.id.
Qed.

(** The restored array holds the selected texts, each as often as it was
    selected. *)
Lemma restoreOrder_perm (sentences selected : list str) :
  incl selected sentences ->
  exists restored,
    restoreOrder sentences selected = map Some restored
    /\ Permutation selected restored.
Proof.
  intros Hincl. apply Permutation_map_inv.
  unfold restoreOrder, sentenceIndexes.
  rewrite (sort_perm byIndex). rewrite map_map.
  erewrite map_ext_in; [reflexivity|].
  intros s Hs. simpl. apply get_findIndex. now apply Hincl.
Qed.

Lemma map_sentence_mapi_from (f : str -> nat -> Q) (l : list str) :
  forall k,
    map sentence
        (mapi_from (fun s i => {| sentence := s; score := f s i |}) k l)
    = l.
Proof.
  induction l as [|x l IH]; intros k; simpl; trivial. now rewrite IH.
Qed.

Lemma map_sentence_sentenceScores (sentences : list str) :
  map sentence (sentenceScores sentences) = sentences.
Proof.
  unfold sentenceScores, mapi.
  apply (map_sentence_mapi_from
           (fun s i =>
              Double.add
                (Double.mul (positionScore i (length sentences))
                            (Double.literal 0.7))
                (Double.mul (lengthScore s) (Double.literal 0.3)))).
Qed.

Lemma ranked_sentences (sentences : list str) :
  Permutation (map sentence (JS.sort byScore (sentenceScores sentences)))
              sentences.
Proof.
  rewrite (sort_perm byScore). now rewrite map_sentence_sentenceScores.
Qed.

End Restore.

(** ** The summary *)

Section Summary.

Variable textContent : str.
Variable constraint_type : option ConstraintType.
Variable constraint_value : option Q.

Let sentences := matchSentences textContent.
Let ranked := JS.sort byScore (sentenceScores sentences).
Let metric := targetMetric constraint_type.
Let budget :=
  targetLength constraint_type constraint_value
               (length (split_ws textContent)) (length textContent).

Lemma summarize_summary :
  fst (summarize textContent constraint_type constraint_value)
  = trim (join (lit " ")
            (restoreOrder sentences (fst (select metric budget ranked [] 0)))).
Proof.
  unfold summarize. fold sentences. fold ranked. fold metric. fold budget.
  now destruct (select metric budget ranked [] 0).
Qed.

Lemma ranked_incl (k : nat) :
  incl (map sentence (firstn k ranked)) sentences.
Proof.
  intros s Hs. apply (Permutation_in _ (ranked_sentences sentences)).
  fold ranked. rewrite <- (firstn_skipn k ranked), map_app, in_app_iff.
  now left.
Qed.

(** The first candidate alone, when it does not fit. *)
Lemma summarize_single (first : Scored) (rest : list Scored) :
  ranked = first :: rest ->
  ~ Qnat (sentenceLength metric (sentence first)) <= budget ->
  fst (summarize textContent constraint_type constraint_value)
  = trim (sentence first).
Proof.
  intros Hr Hover. rewrite summarize_summary.
  pose proof (select_greedy metric budget ranked) as G. rewrite Hr in G.
  destruct G as [G _]. rewrite <- Hr in G. rewrite (G Hover). cbn [fst].
  destruct (@restoreOrder_perm sentences [sentence first]) as (r & E & P).
  { pose proof (ranked_incl 1) as I. rewrite Hr in I. exact I. }
  apply Permutation_length_1_inv in P. subst r. now rewrite E.
Qed.

(** The candidates that fit: a summary that is not empty and, counted in
    words, within the budget. *)
Lemma summarize_fitting (first : Scored) (rest : list Scored) :
  ranked = first :: rest ->
  Qnat (sentenceLength metric (sentence first)) <= budget ->
  let summary := fst (summarize textContent constraint_type constraint_value) in
  summary <> []
  /\ (metric = WordsMetric -> Qnat (length (split_ws summary)) <= budget).
Proof.
  intros Hr Hfit summary. subst summary. rewrite summarize_summary.
  pose proof (select_greedy metric budget ranked) as G. rewrite Hr in G.
  destruct G as [_ G]. rewrite <- Hr in G.
  destruct (G Hfit) as (k & Hk & Hsel & Hle & _). rewrite Hsel. cbn [fst].
  destruct (@restoreOrder_perm sentences (map sentence (firstn k ranked)))
    as (r & E & P); [apply ranked_incl|].
  rewrite E.
  assert (Hne : r <> []).
  { intros ->. apply Permutation_length in P.
    rewrite length_map, length_firstn in P. simpl in P. lia. }
  split.
  - apply trim_join_nonempty; trivial.
    pose proof (matchSentences_ends textContent) as Hends.
    rewrite Forall_forall in *. intros s Hs. apply Hends.
    apply (ranked_incl k). apply (Permutation_in _ (Permutation_sym P) Hs).
  - intros Hm. eapply Qle_trans; [|exact Hle]. apply Qnat_le.
    etransitivity; [apply trim_words|].
    etransitivity; [now apply join_words|].
    rewrite <- (Permutation_list_sum
                  (Permutation_map (fun s => length (split_ws s)) P)).
    unfold totalLength. rewrite Hm, map_map. reflexivity.
Qed.

End Summary.

Lemma Qnat_le_iff (a b : nat) : Qnat a <= Qnat b <-> (a <= b)%nat.
Proof.
  unfold Qnat. rewrite <- Zle_Qle. lia.
Qed.

Lemma length_ranked (sentences : list str) :
  length (JS.sort byScore (sentenceScores sentences)) = length sentences.
Proof.
  rewrite (Permutation_length (sort_perm byScore _)).
  apply length_mapi_from.
Qed.

(** C2.  The selection reads the sentences from the highest composite score
    down, the lower original index first among equal scores; the scores are
    the doubles the code stores and compares.  It accepts
    candidates as long as the accumulated length, in the unit of the
    constraint type, stays within the budget, and stops at the first one
    that does not fit; when that one is the very first candidate, it is
    accepted alone.  For ten sentences and a budget of 20 words the summary
    is not empty; it has at most 20 words when the top-ranked sentence has,
    and is that sentence, trimmed as every summary is, when it has more. *)
Theorem greedy_selection (textContent : str)
    (constraint_type : option ConstraintType) (constraint_value : option Q) :
  let sentences := matchSentences textContent in
  let ranked := JS.sort byScore (sentenceScores sentences) in
  let metric := targetMetric constraint_type in
  let budget :=
    targetLength constraint_type constraint_value
                 (length (split_ws textContent)) (length textContent) in
  let summary := fst (summarize textContent constraint_type constraint_value) in
  (exists order : list (nat * Scored),
      map snd order = ranked
      /\ Permutation order (indexed (sentenceScores sentences))
      /\ StronglySorted ranksBefore order)
  /\ match ranked with
     | [] => select metric budget ranked [] 0 = ([], 0%nat)
     | first :: _ =>
         (~ Qnat (sentenceLength metric (sentence first)) <= budget ->
          select metric budget ranked [] 0 = ([sentence first], 0%nat))
         /\ (Qnat (sentenceLength metric (sentence first)) <= budget ->
             exists k,
               (1 <= k <= length ranked)%nat
               /\ select metric budget ranked [] 0
                  = (map sentence (firstn k ranked),
                     totalLength metric (firstn k ranked))
               /\ Qnat (totalLength metric (firstn k ranked)) <= budget
               /\ ((k < length ranked)%nat ->
                   ~ Qnat (totalLength metric (firstn (S k) ranked)) <= budget))
     end
  /\ (length sentences = 10%nat ->
      constraint_type = Some ByWords -> constraint_value = Some 20 ->
      summary <> []
      /\ exists top,
          hd_error ranked = Some top
          /\ ((length (split_ws (sentence top)) <= 20)%nat ->
              (length (split_ws summary) <= 20)%nat
              /\ (length (tokens summary) <= 20)%nat)
          /\ ((20 < length (split_ws (sentence top)))%nat ->
              summary = trim (sentence top))).
Proof.
  intros sentences ranked metric budget summary.
  split; [apply ranking_sorted|].
  split; [apply select_greedy|].
  intros Hten -> ->.
  assert (Hlen : length ranked = 10%nat).
  { subst ranked. now rewrite length_ranked. }
  destruct ranked as [|top rest] eqn:Hr; [discriminate|].
  assert (Hmetric : metric = WordsMetric) by reflexivity.
  assert (Hbudget : budget = Qnat 20) by reflexivity.
  pose proof (@summarize_single textContent (Some ByWords) (Some 20) top rest Hr)
    as Hsingle.
  pose proof (@summarize_fitting textContent (Some ByWords) (Some 20) top rest Hr)
    as Hfitting.
  fold metric budget summary in Hsingle, Hfitting.
  rewrite Hmetric, Hbudget in Hsingle, Hfitting. cbn [sentenceLength] in *.
  rewrite Qnat_le_iff in Hsingle, Hfitting.
  split.
  - destruct (le_lt_dec (length (split_ws (sentence top))) 20) as [H|H].
    + now apply Hfitting.
    + rewrite Hsingle by lia.
      pose proof (matchSentences_ends textContent) as Hends.
      rewrite Forall_forall in Hends.
      assert (Hin : In (sentence top) (matchSentences textContent)).
      { apply (@ranked_incl textContent 1). fold sentences. fold ranked.
        rewrite Hr. now left. }
      apply (@trim_join_nonempty [sentence top]); [discriminate|].
      constructor; [now apply Hends | constructor].
  - exists top. split; [reflexivity|]. split.
    + intros H. destruct (Hfitting H) as [_ Hw].
      specialize (Hw eq_refl). rewrite Qnat_le_iff in Hw.
      split; [exact Hw|].
      etransitivity; [apply tokens_le_words | exact Hw].
    + intros H. apply Hsingle. lia.
Qed.

Lemma greedy_selection_witness :
  fst (summarize tenSentences (Some ByWords) (Some 20)) <> [].
Proof.
  pose proof (greedy_selection tenSentences (Some ByWords) (Some 20)) as H.
  cbv zeta in H. destruct H as (_ & _ & H).
  specialize (H eq_refl eq_refl eq_refl). exact (proj1 H).
Defined.

(** ** The Order Restorer on distinct sentences *)

Section Distinct.

Lemma byIndex_lt (a b : Z) : byIndex a b = true <-> (b < a)%Z.
Proof. unfold byIndex. rewrite Z.ltb_lt. lia. Qed.

Lemma insert_byIndex_sorted (x : Z) (l : list Z) :
  StronglySorted Z.le l -> StronglySorted Z.le (insert byIndex x l).
Proof.
  induction l as [|y l IH]; intros Hs; simpl.
  - repeat constructor.
  - apply StronglySorted_inv in Hs. destruct Hs as [Hs Hy].
    destruct (byIndex x y) eqn:E.
    + apply byIndex_lt in E. constructor; [now apply IH|].
      apply (Permutation_Forall (x := x :: l)).
      { symmetry. apply insert_perm. }
      constructor; [lia | exact Hy].
    + assert (Hxy : (x <= y)%Z).
      { destruct (Z.le_gt_cases x y) as [H|H]; trivial.
        apply byIndex_lt in H. congruence. }
      constructor; [now constructor|].
      constructor; trivial.
      eapply Forall_impl; [|exact Hy]. simpl. intros; lia.
Qed.

Lemma sort_byIndex_sorted (l : list Z) :
  StronglySorted Z.le (JS.sort byIndex l).
Proof.
  induction l as [|x l IH]; simpl; [constructor|].
  now apply insert_byIndex_sorted.
Qed.

Lemma findIndex_distinct (sentences : list str) (i : nat) (s : str) :
  NoDup sentences -> nth_error sentences i = Some s ->
  findIndex (fun x => str_eqb x s) sentences = Z.of_nat i.
Proof.
  intros Hnd Hi.
  destruct (findIndex_from_found s sentences 0 (nth_error_In _ _ Hi))
    as (j & Hj & Hn).
  unfold findIndex. rewrite Hj, Z.add_0_l. f_equal.
  apply (proj1 (NoDup_nth_error sentences) Hnd).
  - apply nth_error_Some. congruence.
  - congruence.
Qed.

(** When no two sentences have the same text, the restored array lists the
    selected sentences by ascending original index, whatever the order in
    which their indexes [picked] were selected. *)
Lemma restoreOrder_distinct (sentences : list str) (picked : list nat) :
  NoDup sentences ->
  Forall (fun i => (i < length sentences)%nat) picked ->
  restoreOrder sentences (map (fun i => nth i sentences []) picked)
  = map (get sentences) (JS.sort byIndex (map Z.of_nat picked))
  /\ StronglySorted Z.le (JS.sort byIndex (map Z.of_nat picked))
  /\ Permutation (JS.sort byIndex (map Z.of_nat picked)) (map Z.of_nat picked).
Proof.
  intros Hnd Hp. split; [|split].
  - unfold restoreOrder, sentenceIndexes. rewrite map_map. do 2 f_equal.
    apply map_ext_in. intros i Hi.
    rewrite Forall_forall in Hp.
    apply findIndex_distinct; trivial.
    apply nth_error_nth'. now apply Hp.
  - apply sort_byIndex_sorted.
  - apply sort_perm.
Qed.

End Distinct.

(** ** Documents without sentence *)

Lemma summarize_no_sentence (textContent : str)
    (constraint_type : option ConstraintType) (constraint_value : option Q) :
  matchSentences textContent = [] ->
  fst (summarize textContent constraint_type constraint_value) = [].
Proof.
  intros H. rewrite summarize_summary, H. reflexivity.
Qed.

(** C1, as the code has it.  A document without sentence is no error: when
    the content resolves to such a document, [summaryText] returns the empty
    summary if the logger writes its record, and fails with the error of the
    logger otherwise. *)
Theorem no_sentence_gives_empty_summary (fs : FileHandler.FileSystem)
    (logger : Logger) (params : SummaryTextParams) (textContent : str)
    (Hresolved :
       FileHandler.resolveTextContent fs (Summary.input_text params)
         (match Summary.is_file_path params with Some b => b | None => false end)
       = Ok textContent)
    (Hnone : matchSentences textContent = []) :
  let logged :=
    snd (summarize textContent (constraint_type params) (constraint_value params)) in
  (forall logPath,
      logSummaryProcess logger (fst logged) (snd logged) = Ok logPath ->
      summaryText fs logger params = Ok [])
  /\ (forall cause,
        logSummaryProcess logger (fst logged) (snd logged) = Err cause ->
        summaryText fs logger params
        = Err (lit "Summary process failed: " ++ cause)).
Proof.
  intros logged.
  pose proof (summarize_no_sentence textContent (constraint_type params)
                (constraint_value params) Hnone) as Hsummary.
  unfold summaryText. rewrite Hresolved. cbn [bind]. subst logged.
  destruct (summarize textContent _ _) as [summary [details stats]].
  cbn [fst snd] in *. subst summary.
  split; intros x Hlog; now rewrite Hlog.
Qed.

Lemma no_sentence_gives_empty_summary_witness :
  summaryText noFiles quietLogger (plainText (lit "no terminator here")) = Ok [].
Proof.
  exact (proj1 (@no_sentence_gives_empty_summary noFiles quietLogger
                  (plainText (lit "no terminator here"))
                  (lit "no terminator here") eq_refl eq_refl)
               (lit "/logs/summary/session.log") eq_refl).
Defined.

(** C1 as stated fails: the empty string has no sentence, and summarizing
    it succeeds with the empty summary. *)
Lemma empty_input_succeeds :
  matchSentences (lit "") = []
  /\ summaryText noFiles quietLogger (plainText (lit "")) = Ok []
  /\ forall message,
       summaryText noFiles quietLogger (plainText (lit "")) <> Err message.
Proof.
  split; [reflexivity|]. split; [reflexivity|]. discriminate.
Qed.

(** ** Repeated sentences *)

(** C3 on a document with a repeated sentence.  All four sentences are
    selected; the index of a selected sentence is looked up by its text, so
    both copies of the repeated sentence get the index of the first one and
    the third sentence of the document ends up last in the summary. *)
Theorem repeated_sentence_out_of_order :
  matchSentences repeatedSentence
  = [lit "A."; lit " B."; lit " A."; lit " B."]
  /\ fst (select CharsMetric 100
            (JS.sort byScore (sentenceScores (matchSentences repeatedSentence)))
            [] 0)
     = [lit "A."; lit " B."; lit " A."; lit " B."]
  /\ sentenceIndexes (matchSentences repeatedSentence)
                     [lit "A."; lit " B."; lit " A."; lit " B."]
     = [0; 1; 2; 1]%Z
  /\ fst (summarize repeatedSentence (Some ByChars) (Some 100))
     = lit "A.  B.  B.  A."
  /\ fst (summarize repeatedSentence (Some ByChars) (Some 100))
     <> lit "A.  B.  A.  B.".
Proof.
  repeat split; try (vm_compute; reflexivity). vm_compute. discriminate.
Qed.

(** ** The examples of the specification *)

Example paragraph_break_for_gap_11 :
  formatTranscript noFiles
    (transcript "[00:00:01] Hello there." "[00:00:12] Next paragraph.")
  = Ok (lit "Hello there." ++ [LF; LF] ++ lit "Next paragraph.").
Proof. reflexivity. Qed.

Example single_space_for_gap_3 :
  formatTranscript noFiles
    (transcript "[00:00:01] Hello there." "[00:00:04] quick follow up.")
  = Ok (lit "Hello there. quick follow up.").
Proof. reflexivity. Qed.

Example line_without_stamp_continues :
  parseSegments (lit "[00:01:05] Hello" ++ [LF] ++ lit "  there. ")
  = [{| time := 65; text := lit "Hello there." |}].
Proof. reflexivity. Qed.

Example ten_sentences_all_selected :
  fst (summarize tenSentences (Some ByWords) (Some 20))
  = lit "One.  Two.  Three.  Four.  Five.  Six.  Seven.  Eight.  Nine.  Ten.".
Proof. vm_compute. reflexivity. Qed.

(** * Further properties of the code *)

(** ** More on the Sentence Extractor *)

Section ExtractorShape.

Lemma terminator_free_app (a b : str) :
  terminator_free a -> terminator_free b -> terminator_free (a ++ b).
Proof. intros Ha Hb. apply Forall_app. now split. Qed.

Lemma terminators_app (a b : str) :
  terminators a -> terminators b -> terminators (a ++ b).
Proof. intros Ha Hb. apply Forall_app. now split. Qed.

Lemma matchSentences_go_shape (s : str) :
  forall st cur,
    match st with
    | Skipping => True
    | InBody => cur <> [] /\ terminator_free (rev cur)
    | InTerminators => sentence_shape (rev cur)
    end ->
    Forall sentence_shape (matchSentences_go st cur s).
Proof.
  induction s as [|c s IH]; intros st cur Hcur.
  - destruct st; simpl; auto.
  - assert (Hone : is_terminator c = false ->
                   [c] <> [] /\ terminator_free (rev [c])).
    { intros Hc. split; [discriminate|]. simpl. now repeat constructor. }
    destruct st; simpl; destruct (is_terminator c) eqn:Hc.
    + now apply IH.
    + apply IH. now apply Hone.
    + apply IH. destruct Hcur as [Hne Hfree].
      exists (rev cur), [c]. simpl. repeat split; trivial.
      * intros E. apply Hne. apply (f_equal (@rev char)) in E.
        now rewrite rev_involutive in E.
      * discriminate.
      * now repeat constructor.
    + apply IH. destruct Hcur as [Hne Hfree]. split; [discriminate|].
      simpl. apply terminator_free_app; trivial. now repeat constructor.
    + apply IH. destruct Hcur as (body & marks & E & Hb & Hbf & Hm & Hmt).
      exists body, (marks ++ [c]). simpl. rewrite E, <- app_assoc.
      repeat split; trivial.
      * now destruct marks.
      * apply terminators_app; trivial. now repeat constructor.
    + constructor; trivial. apply IH. now apply Hone.
Qed.

Lemma matchSentences_go_none (s : str) :
  terminator_free s ->
  forall st cur, st <> InTerminators -> matchSentences_go st cur s = [].
Proof.
  induction 1 as [|c s Hc Hs IH]; intros st cur Hst.
  - now destruct st.
  - destruct st; simpl; rewrite Hc; try (apply IH; discriminate).
    contradiction.
Qed.

End ExtractorShape.

(** X8.  Every sentence is a run without terminator followed by a run of
    terminators, both of them non-empty. *)
Theorem sentences_have_body_and_terminators (text : str) :
  Forall sentence_shape (matchSentences text).
Proof. now apply matchSentences_go_shape. Qed.

(** X9.  A text that does not start with a terminator and ends with one is
    the concatenation of its sentences. *)
Theorem terminated_text_is_partitioned (first last : char) (middle : str)
    (Hfirst : is_terminator first = false)
    (Hlast : is_terminator last = true) :
  concat (matchSentences (first :: middle ++ [last]))
  = first :: middle ++ [last].
Proof.
  destruct (matchSentences_go_covers (first :: middle ++ [last]) Skipping [])
    as (lead & tail & E & Hl & Ht).
  fold (matchSentences (first :: middle ++ [last])) in E.
  assert (lead = []) as ->.
  { destruct lead as [|c lead]; trivial.
    apply Forall_inv in Hl. injection E as <- _. congruence. }
  assert (tail = []) as ->.
  { destruct tail as [|t0 tail]; trivial.
    destruct (@exists_last _ (t0 :: tail)) as (t & z & Et); [discriminate|].
    rewrite Et in *.
    apply Forall_app in Ht. destruct Ht as [_ Hz]. apply Forall_inv in Hz.
    change (first :: middle ++ [last]) with ((first :: middle) ++ [last]) in E at 1.
    rewrite !app_assoc in E. apply app_inj_tail in E. destruct E as [_ <-].
    congruence. }
  rewrite E at 2. simpl. now rewrite app_nil_r.
Qed.

Lemma terminated_text_is_partitioned_witness :
  concat (matchSentences (lit "Hi there. Bye!")) = lit "Hi there. Bye!".
Proof.
  exact (@terminated_text_is_partitioned 72%N 33%N (lit "i there. Bye")
           eq_refl eq_refl).
Defined.

(** X5.  A document without any terminator has no sentence, and its summary is
    empty under every constraint. *)
Theorem unpunctuated_text_has_empty_summary (text : str)
    (constraint_type : option ConstraintType) (constraint_value : option Q)
    (Hfree : terminator_free text) :
  matchSentences text = []
  /\ fst (summarize text constraint_type constraint_value) = [].
Proof.
  assert (H : matchSentences text = []).
  { apply matchSentences_go_none; [exact Hfree | discriminate]. }
  split; [exact H | now apply summarize_no_sentence].
Qed.

Lemma unpunctuated_text_has_empty_summary_witness :
  fst (summarize (lit "so we met on monday and then") (Some ByWords) (Some 50))
  = [].
Proof.
  refine (proj2 (@unpunctuated_text_has_empty_summary
                   (lit "so we met on monday and then") (Some ByWords)
                   (Some 50) _)).
  repeat constructor.
Defined.

(** ** More on the summary *)

Section SummaryContents.

Variable textContent : str.
Variable constraint_type : option ConstraintType.
Variable constraint_value : option Q.

Let sentences := matchSentences textContent.
Let ranked := JS.sort byScore (sentenceScores sentences).
Let metric := targetMetric constraint_type.
Let budget :=
  targetLength constraint_type constraint_value
               (length (split_ws textContent)) (length textContent).
Let selected := fst (select metric budget ranked [] 0).

(** The loop selects the first [k] candidates of the ranking. *)
Lemma selected_prefix :
  exists k,
    (k <= length ranked)%nat
    /\ selected = map sentence (firstn k ranked)
    /\ (ranked <> [] -> (1 <= k)%nat)
    /\ (forall top rest, ranked = top :: rest ->
         Qnat (sentenceLength metric (sentence top)) <= budget ->
         Qnat (totalLength metric (firstn k ranked)) <= budget).
Proof.
  unfold selected.
  pose proof (select_greedy metric budget ranked) as G.
  destruct ranked as [|top rest] eqn:Hr.
  - exists 0%nat. rewrite G. simpl. repeat split; auto; try discriminate.
    intros H; now contradiction H.
  - destruct G as [Gover Gfit].
    destruct (Qlt_le_dec budget (Qnat (sentenceLength metric (sentence top))))
      as [Hover|Hfit].
    + exists 1%nat. rewrite (Gover (Qlt_not_le _ _ Hover)). simpl.
      split; [lia|]. split; [reflexivity|]. split; [lia|].
      intros top' rest' E Hfit. injection E as <- <-.
      exfalso. exact (Qlt_not_le _ _ Hover Hfit).
    + destruct (Gfit Hfit) as (k & Hk & Hsel & Hle & _).
      exists k. rewrite Hsel. cbn [fst].
      split; [lia|]. split; [reflexivity|]. split; [lia|].
      intros _ _ _ _. exact Hle.
Qed.

Lemma summary_of_restored :
  exists k restored,
    (k <= length sentences)%nat
    /\ (sentences <> [] -> (1 <= k)%nat)
    /\ selected = map sentence (firstn k ranked)
    /\ Permutation restored (map sentence (firstn k ranked))
    /\ incl restored sentences
    /\ fst (summarize textContent constraint_type constraint_value)
       = trim (join (lit " ") (map Some restored))
    /\ (forall top rest, ranked = top :: rest ->
         Qnat (sentenceLength metric (sentence top)) <= budget ->
         Qnat (totalLength metric (firstn k ranked)) <= budget).
Proof.
  destruct selected_prefix as (k & Hk & Hsel & Hpos & Hbudget).
  destruct (@restoreOrder_perm sentences (map sentence (firstn k ranked)))
    as (r & E & P); [apply ranked_incl|].
  exists k, r.
  unfold ranked in Hk. rewrite length_ranked in Hk.
  split; [exact Hk|]. split.
  { intros Hne. apply Hpos. intros Hr.
    apply (f_equal (@length Scored)) in Hr. unfold ranked in Hr.
    rewrite length_ranked in Hr. destruct sentences; [contradiction|discriminate]. }
  split; [exact Hsel|]. split; [now symmetry|]. split; [|split].
  - intros x Hx. apply (@ranked_incl textContent k).
    apply (Permutation_in _ (Permutation_sym P) Hx).
  - rewrite summarize_summary. fold sentences ranked metric budget selected.
    rewrite Hsel. exact (f_equal (fun a => trim (join (lit " ") a)) E).
  - exact Hbudget.
Qed.

End SummaryContents.

Lemma length_trimStart_le (s : str) : (length (trimStart s) <= length s)%nat.
Proof.
  induction s as [|c s IH]; simpl; [lia|].
  destruct (is_space c); simpl; lia.
Qed.

Lemma length_trimEnd_le (s : str) : (length (trimEnd s) <= length s)%nat.
Proof.
  induction s as [|c s IH]; simpl; [lia|].
  destruct (trimEnd s); [destruct (is_space c)|]; simpl in *; lia.
Qed.

Lemma length_trim_le (s : str) : (length (trim s) <= length s)%nat.
Proof.
  unfold trim. etransitivity; [apply length_trimEnd_le|].
  apply length_trimStart_le.
Qed.

Lemma length_join (l : list str) :
  l <> [] ->
  (length (join (lit " ") (map Some l)) + 1
   = list_sum (map (@length char) l) + length l)%nat.
Proof.
  induction l as [|x l IH]; intros Hne; [contradiction|].
  destruct l as [|y l].
  - simpl. lia.
  - specialize (IH ltac:(discriminate)).
    change (join (lit " ") (map Some (x :: y :: l)))
      with (x ++ 32%N :: join (lit " ") (map Some (y :: l))).
    remember (join (lit " ") (map Some (y :: l))) as J.
    remember (y :: l) as l'.
    rewrite length_app. unfold list_sum in *.
    cbn [length map fold_right]. lia.
Qed.

(** X1.  A document with at least one sentence never gets an empty summary,
    whatever the constraint: the loop always keeps one sentence. *)
Theorem summary_not_empty (textContent : str)
    (constraint_type : option ConstraintType) (constraint_value : option Q)
    (Hsome : matchSentences textContent <> []) :
  fst (summarize textContent constraint_type constraint_value) <> [].
Proof.
  destruct (summary_of_restored textContent constraint_type constraint_value)
    as (k & r & Hk & Hpos & _ & P & Hincl & -> & _).
  specialize (Hpos Hsome).
  apply trim_join_nonempty.
  - intros ->. apply Permutation_length in P.
    rewrite length_map, length_firstn, length_ranked in P. simpl in P. lia.
  - pose proof (matchSentences_ends textContent) as Hends.
    rewrite Forall_forall in *. intros x Hx. apply Hends. now apply Hincl.
Qed.

Lemma summary_not_empty_witness :
  fst (summarize (lit "Long opening sentence here. End.") (Some ByChars)
                 (Some (-3)))
  <> [].
Proof.
  apply summary_not_empty. discriminate.
Defined.

(** X2.  The summary is extractive: it is the trimmed single-space join of the
    [k] top-ranked sentences of the document, each taken as it stands, and
    [k] is at least 1 when the document has a sentence. *)
Theorem summary_is_extractive (textContent : str)
    (constraint_type : option ConstraintType) (constraint_value : option Q) :
  let sentences := matchSentences textContent in
  let ranked := JS.sort byScore (sentenceScores sentences) in
  exists (k : nat) (restored : list str),
    (k <= length sentences)%nat
    /\ (sentences <> [] -> (1 <= k)%nat)
    /\ Permutation restored (map sentence (firstn k ranked))
    /\ incl restored sentences
    /\ fst (summarize textContent constraint_type constraint_value)
       = trim (join (lit " ") (map Some restored)).
Proof.
  intros sentences ranked.
  destruct (summary_of_restored textContent constraint_type constraint_value)
    as (k & r & Hk & Hpos & _ & P & Hincl & E & _).
  exists k, r. auto.
Qed.

Lemma summary_is_extractive_witness :
  exists k : nat,
    (1 <= k)%nat /\ (k <= length (matchSentences tenSentences))%nat.
Proof.
  destruct (summary_is_extractive tenSentences None None)
    as (k & restored & Hk & Hpos & _).
  exists k. split; [apply Hpos; discriminate | exact Hk].
Defined.

Lemma Qnat_plus (a b : nat) : Qnat (a + b) == Qnat a + Qnat b.
Proof.
  unfold Qnat. now rewrite Nat2Z.inj_add, inject_Z_plus.
Qed.

(** X3.  Counted in words, a summary stays within the budget whenever the
    top-ranked sentence fits: for the types [time] and [words] and without
    a type, for any number of sentences and any budget. *)
Theorem summary_within_word_budget (textContent : str)
    (constraint_type : option ConstraintType) (constraint_value : option Q)
    (top : Scored) (rest : list Scored)
    (Hwords : constraint_type <> Some ByChars)
    (Hranked : JS.sort byScore (sentenceScores (matchSentences textContent))
               = top :: rest)
    (Hfits : Qnat (length (split_ws (sentence top)))
             <= targetLength constraint_type constraint_value
                  (length (split_ws textContent)) (length textContent)) :
  Qnat (length (split_ws (fst (summarize textContent constraint_type
                                         constraint_value))))
  <= targetLength constraint_type constraint_value
       (length (split_ws textContent)) (length textContent).
Proof.
  assert (Hm : targetMetric constraint_type = WordsMetric).
  { destruct constraint_type as [[]|]; trivial. contradiction. }
  pose proof (@summarize_fitting textContent constraint_type constraint_value
                top rest Hranked) as F.
  rewrite Hm in F. apply F; trivial.
Qed.

Lemma summary_within_word_budget_witness :
  Qnat (length (split_ws (fst (summarize tenSentences (Some ByTime) (Some 4)))))
  <= targetLength (Some ByTime) (Some 4) (length (split_ws tenSentences))
       (length tenSentences).
Proof.
  let ranked :=
    eval vm_compute in
      (JS.sort byScore (sentenceScores (matchSentences tenSentences))) in
  match ranked with
  | ?top :: ?rest =>
      refine (@summary_within_word_budget tenSentences (Some ByTime) (Some 4)
                top rest _ _ _)
  end.
  - discriminate.
  - vm_compute. reflexivity.
  - apply Qle_bool_iff. vm_compute. reflexivity.
Defined.

(** X4.  Counted in characters, the selection stays within the budget but the
    summary may not: joining adds a space per sentence after the first.
    When the top-ranked sentence fits, the summary exceeds the budget by
    less than the number of selected sentences. *)
Theorem summary_chars_may_exceed_by_separators (textContent : str)
    (constraint_value : option Q) (top : Scored) (rest : list Scored)
    (Hranked : JS.sort byScore (sentenceScores (matchSentences textContent))
               = top :: rest)
    (Hfits : Qnat (length (sentence top))
             <= targetLength (Some ByChars) constraint_value
                  (length (split_ws textContent)) (length textContent)) :
  let budget :=
    targetLength (Some ByChars) constraint_value
                 (length (split_ws textContent)) (length textContent) in
  let selected :=
    fst (select CharsMetric budget
           (JS.sort byScore (sentenceScores (matchSentences textContent)))
           [] 0) in
  Qnat (length (fst (summarize textContent (Some ByChars) constraint_value)) + 1)
  <= budget + Qnat (length selected).
Proof.
  intros budget selected.
  destruct (summary_of_restored textContent (Some ByChars) constraint_value)
    as (k & r & Hk & Hpos & Hsel & P & Hincl & E & Hbudget).
  specialize (Hbudget top rest Hranked Hfits).
  cbn [targetMetric] in Hsel, Hbudget. fold budget in Hsel, Hbudget.
  fold selected in Hsel.
  assert (Hr : r <> []).
  { intros ->. apply Permutation_length in P.
    rewrite length_map, length_firstn, Hranked in P.
    destruct (Hpos ltac:(intros H0; rewrite H0 in Hranked; discriminate)).
    - simpl in P. discriminate.
    - simpl in P. discriminate. }
  assert (Hlen : (length (fst (summarize textContent (Some ByChars)
                                         constraint_value)) + 1
                  <= totalLength CharsMetric
                       (firstn k (JS.sort byScore
                                    (sentenceScores (matchSentences textContent))))
                     + length selected)%nat).
  { rewrite E. pose proof (length_trim_le (join (lit " ") (map Some r))) as Ht.
    pose proof (@length_join r Hr) as Hj.
    rewrite (Permutation_list_sum (Permutation_map (@length char) P)) in Hj.
    rewrite (Permutation_length P) in Hj.
    rewrite Hsel. unfold totalLength. cbn [sentenceLength].
    rewrite map_map in Hj. lia. }
  apply Qnat_le in Hlen.
  eapply Qle_trans; [exact Hlen|].
  rewrite Qnat_plus. apply Qplus_le_l. exact Hbudget.
Qed.

Lemma summary_chars_may_exceed_by_separators_witness :
  Qnat (length (fst (summarize (lit "A. B.") (Some ByChars) (Some 5))) + 1)
  <= 5 + Qnat 2.
Proof.
  let ranked :=
    eval vm_compute in
      (JS.sort byScore (sentenceScores (matchSentences (lit "A. B.")))) in
  match ranked with
  | ?top :: ?rest =>
      refine (@summary_chars_may_exceed_by_separators (lit "A. B.") (Some 5)
                top rest _ _)
  end.
  - vm_compute. reflexivity.
  - apply Qle_bool_iff. vm_compute. reflexivity.
Defined.

(** The bound is reached: a budget of 5 characters gives a summary of 6. *)
Example summary_of_six_characters_for_budget_five :
  fst (summarize (lit "A. B.") (Some ByChars) (Some 5)) = lit "A.  B.".
Proof. vm_compute. reflexivity. Qed.

(** X6.  Every composite score, the double the code stores, lies above 0 and
    does not exceed 1. *)
Theorem scores_between_0_and_1 (sentences : list str) (item : Scored)
    (HN : arrayLength (length sentences))
    (Hitem : In item (sentenceScores sentences)) :
  0 < score item /\ score item <= 1.
Proof.
  apply In_nth_error in Hitem. destruct Hitem as [i Hi].
  unfold sentenceScores, mapi in Hi. rewrite nth_error_mapi_from in Hi.
  destruct (nth_error sentences i) as [s|] eqn:Hs; [|discriminate].
  injection Hi as <-. cbn [score Nat.add].
  assert (Hlt : (i < length sentences)%nat).
  { apply nth_error_Some. congruence. }
  split.
  - now apply score_positive.
  - now destruct (score_near s Hlt) as (_ & H & _).
Qed.

Lemma scores_between_0_and_1_witness :
  0 < score {| sentence := lit "One.";
               score := Double.add
                          (Double.mul (positionScore 0 2) (Double.literal 0.7))
                          (Double.mul (lengthScore (lit "One."))
                                      (Double.literal 0.3)) |}.
Proof.
  refine (proj1 (@scores_between_0_and_1 [lit "One."; lit " Two."] _ _ _)).
  - reflexivity.
  - left. reflexivity.
Defined.

(** ** The Segment Parser *)

Section Parser.

Lemma splitLines_cons (s : str) : exists l ls, splitLines s = l :: ls.
Proof.
  induction s as [|c s (l & ls & E)]; simpl; [eauto|].
  destruct (c =? 10)%N; [eauto|]. rewrite E. eauto.
Qed.

Lemma length_appendToLast (segments : list Segment) (more : str) :
  length (appendToLast segments more) = length segments.
Proof.
  induction segments as [|s [|s' l] IH]; simpl in *; auto.
Qed.

Lemma map_time_appendToLast (segments : list Segment) (more : str) :
  map time (appendToLast segments more) = map time segments.
Proof.
  induction segments as [|s [|s' l] IH]; trivial.
  change (appendToLast (s :: s' :: l) more)
    with (s :: appendToLast (s' :: l) more).
  cbn [map]. now rewrite IH.
Qed.

Lemma length_parseLine (segments : list Segment) (line : str) :
  length (parseLine segments line)
  = if stamped line then S (length segments)
    else match segments with [] => 1%nat | _ => length segments end.
Proof.
  unfold parseLine, stamped.
  destruct (matchTimestamp line) as [[[[h m] sec] g]|].
  - rewrite length_app. simpl. lia.
  - destruct segments as [|s l]; [reflexivity|].
    change (0 <? length (s :: l))%nat with true. cbv iota.
    apply length_appendToLast.
Qed.

Lemma length_parse_later (lines : list str) :
  forall segments,
    segments <> [] ->
    length (fold_left parseLine lines segments)
    = (length segments + length (filter stamped lines))%nat.
Proof.
  induction lines as [|line lines IH]; intros segments Hne; simpl; [lia|].
  rewrite IH.
  - rewrite length_parseLine. destruct (stamped line); simpl; [lia|].
    destruct segments; [contradiction | simpl; lia].
  - intros E. apply (f_equal (@length Segment)) in E.
    rewrite length_parseLine in E.
    destruct (stamped line), segments; discriminate.
Qed.

Lemma parseInt2_bounds (d1 d2 : char) :
  is_digit d1 = true -> is_digit d2 = true ->
  (0 <= parseInt2 d1 d2 <= 99)%Z.
Proof.
  unfold is_digit, parseInt2. rewrite !andb_true_iff, !N.leb_le. lia.
Qed.

Lemma timestampAt_bounds (s : str) (m : Z * Z * Z * str) :
  timestampAt s = Some m -> inRange m.
Proof.
  unfold timestampAt.
  destruct s as [|b1 [|h1 [|h2 [|c1 [|m1 [|m2 [|c2 [|s1 [|s2 [|b2 rest]]]]]]]]]];
    try discriminate.
  destruct (_ && _)%bool eqn:E; [|discriminate].
  intros [= <-]. rewrite !andb_true_iff in E. simpl.
  repeat split; apply parseInt2_bounds; tauto.
Qed.

Lemma matchTimestamp_bounds (line : str) (m : Z * Z * Z * str) :
  matchTimestamp line = Some m -> inRange m.
Proof.
  induction line as [|c line IH].
  - simpl. discriminate.
  - cbn [matchTimestamp].
    destruct (timestampAt (c :: line)) eqn:E.
    + intros [= <-]. exact (timestampAt_bounds _ E).
    + exact IH.
Qed.

Lemma parseLine_times (segments : list Segment) (line : str) :
  Forall (fun t => 0 <= t <= 362439)%Z (map time segments) ->
  Forall (fun t => 0 <= t <= 362439)%Z (map time (parseLine segments line)).
Proof.
  intros H. unfold parseLine.
  destruct (matchTimestamp line) as [[[[h m] sec] g]|] eqn:E.
  - rewrite map_app. apply Forall_app. split; trivial.
    apply matchTimestamp_bounds in E. simpl in E.
    repeat constructor; simpl; lia.
  - destruct (0 <? length segments)%nat.
    + now rewrite map_time_appendToLast.
    + rewrite map_app. apply Forall_app. split; trivial.
      repeat constructor; simpl; lia.
Qed.

Lemma timestampAt_skip (c : char) (l : str) :
  c <> 91%N -> timestampAt (c :: l) = None.
Proof.
  intros Hc. unfold timestampAt.
  destruct l as [|h1 [|h2 [|c1 [|m1 [|m2 [|c2 [|s1 [|s2 [|b2 rest]]]]]]]]];
    trivial.
  apply N.eqb_neq in Hc. now rewrite Hc.
Qed.

Lemma matchTimestamp_head (l : str) (m : Z * Z * Z * str) :
  timestampAt l = Some m -> matchTimestamp l = Some m.
Proof.
  intros H. destruct l; cbn [matchTimestamp]; now rewrite H.
Qed.

Lemma is_digit_tens (n : N) :
  (n < 100)%N -> is_digit (48 + n / 10)%N = true.
Proof.
  intros H. unfold is_digit. rewrite andb_true_iff, !N.leb_le.
  assert (Hq : (n / 10 < 10)%N) by (apply N.Div0.div_lt_upper_bound; lia).
  revert Hq. generalize (n / 10)%N. intros q Hq. lia.
Qed.

Lemma is_digit_units (n : N) : is_digit (48 + n mod 10)%N = true.
Proof.
  unfold is_digit. rewrite andb_true_iff, !N.leb_le.
  assert (Hr : (n mod 10 < 10)%N) by (apply N.mod_lt; lia).
  revert Hr. generalize (n mod 10)%N. intros r Hr. lia.
Qed.

Lemma parseInt2_twoDigits (n : N) :
  parseInt2 (48 + n / 10)%N (48 + n mod 10)%N = Z.of_N n.
Proof.
  unfold parseInt2. f_equal.
  rewrite (N.div_mod n 10) at 3 by lia.
  generalize (n / 10)%N (n mod 10)%N. intros q r. lia.
Qed.

Lemma timestampAt_stamp (h m sec : N) (rest : str) :
  (h < 100)%N -> (m < 100)%N -> (sec < 100)%N ->
  timestampAt (stamp h m sec ++ rest)
  = Some (Z.of_N h, Z.of_N m, Z.of_N sec, dotStar (trimStart rest)).
Proof.
  intros Hh Hm Hs. unfold stamp, twoDigits. cbn [app timestampAt].
  rewrite !is_digit_tens, !is_digit_units by trivial.
  rewrite !parseInt2_twoDigits. reflexivity.
Qed.

Lemma dotStar_id (s : str) :
  Forall (fun c => is_line_terminator c = false) s -> dotStar s = s.
Proof.
  induction 1 as [|c s Hc Hs IH]; simpl; trivial. now rewrite Hc, IH.
Qed.

Lemma trimStart_suffix (P : char -> Prop) (s : str) :
  Forall P s -> Forall P (trimStart s).
Proof.
  induction 1 as [|c s Hc Hs IH]; simpl; [constructor|].
  destruct (is_space c); [exact IH | now constructor].
Qed.

Lemma trimStart_idem (s : str) : trimStart (trimStart s) = trimStart s.
Proof.
  induction s as [|c s IH]; simpl; trivial.
  destruct (is_space c) eqn:E; trivial. simpl. now rewrite E.
Qed.

End Parser.

(** X11.  The first line of a transcript always opens a segment, and every later
    line opens one exactly when it carries a time stamp: the parser never
    returns an empty list. *)
Theorem segments_count (textContent : str) :
  length (parseSegments textContent)
  = S (length (filter stamped (tl (splitLines (trim textContent))))).
Proof.
  unfold parseSegments.
  destruct (splitLines_cons (trim textContent)) as (l & ls & ->).
  cbn [fold_left tl]. rewrite length_parse_later.
  - rewrite length_parseLine. now destruct (stamped l).
  - intros E. apply (f_equal (@length Segment)) in E.
    rewrite length_parseLine in E. now destruct (stamped l).
Qed.

(** X12.  The time of every parsed segment lies between 0 and 99:99:99, that is
    362439 seconds: the parser takes any two digits for minutes and
    seconds. *)
Theorem segment_times_bounded (textContent : str) :
  Forall (fun segment => 0 <= time segment <= 362439)%Z
         (parseSegments textContent).
Proof.
  apply Forall_map with (f := time) (P := fun t => (0 <= t <= 362439)%Z).
  unfold parseSegments. generalize (splitLines (trim textContent)).
  assert (H : forall lines segments,
             Forall (fun t => 0 <= t <= 362439)%Z (map time segments) ->
             Forall (fun t => 0 <= t <= 362439)%Z
                    (map time (fold_left parseLine lines segments))).
  { induction lines as [|l ls IH]; intros segments Hs; simpl; trivial.
    apply IH. now apply parseLine_times. }
  intros lines. apply H. constructor.
Qed.

(** X13.  A line made of a time stamp, a space and a text without line terminator
    opens a segment with the seconds of the stamp and the trimmed text. *)
Theorem stamped_line_parses (hours minutes seconds : N) (words : str)
    (segments : list Segment)
    (Hh : (hours < 100)%N) (Hm : (minutes < 100)%N) (Hs : (seconds < 100)%N)
    (Hwords : Forall (fun c => is_line_terminator c = false) words) :
  parseLine segments (stamp hours minutes seconds ++ lit " " ++ words)
  = segments
      ++ [{| time := Z.of_N (hours * 3600 + minutes * 60 + seconds);
             text := trim words |}].
Proof.
  unfold parseLine.
  rewrite (matchTimestamp_head _ (timestampAt_stamp _ Hh Hm Hs)).
  change (trimStart (lit " " ++ words)) with (trimStart words).
  rewrite dotStar_id by now apply trimStart_suffix.
  unfold trim at 1. rewrite trimStart_idem. fold (trim words).
  do 3 f_equal. lia.
Qed.

Lemma stamped_line_parses_witness :
  parseLine [] (lit "[01:02:03] Hello there. ")
  = [{| time := 3723; text := lit "Hello there." |}].
Proof.
  refine (@stamped_line_parses 1 2 3 (lit "Hello there. ") [] eq_refl eq_refl
            eq_refl _).
  repeat constructor.
Defined.

(** X14.  The pattern of the time stamp is not anchored: what stands in front of
    the stamp on its line, the stamp being the first opening bracket, plays
    no part in the match and is lost from the segment. *)
Theorem text_before_stamp_is_dropped (before line : str)
    (segments : list Segment)
    (Hbefore : Forall (fun c => c <> 91%N) before) :
  matchTimestamp (before ++ line) = matchTimestamp line
  /\ (stamped line = true ->
      parseLine segments (before ++ line) = parseLine segments line).
Proof.
  assert (E : matchTimestamp (before ++ line) = matchTimestamp line).
  { induction Hbefore as [|c before Hc Hb IH]; trivial.
    cbn [app matchTimestamp]. now rewrite (timestampAt_skip _ Hc). }
  split; trivial.
  unfold stamped, parseLine. rewrite E.
  destruct (matchTimestamp line); [reflexivity | discriminate].
Qed.

Lemma text_before_stamp_is_dropped_witness :
  parseLine [] (lit "Speaker one: " ++ lit "[00:00:05] hello")
  = parseLine [] (lit "[00:00:05] hello").
Proof.
  refine (proj2 (@text_before_stamp_is_dropped (lit "Speaker one: ")
                   (lit "[00:00:05] hello") [] _) eq_refl).
  repeat constructor; discriminate.
Defined.

(** ** More on the Text Assembler *)

Section Breaks.

Variables paragraph_gap line_gap : Q.

Lemma breakFor_paragraph (gap : Z) :
  breakFor paragraph_gap line_gap gap = [LF; LF]
  <-> paragraph_gap < inject_Z gap.
Proof.
  unfold breakFor. rewrite <- Qltb_lt.
  destruct (Qltb paragraph_gap (inject_Z gap)); [tauto|].
  destruct (Qltb line_gap (inject_Z gap)); split; discriminate.
Qed.

Lemma breakFor_inline (gap : Z) :
  breakFor paragraph_gap line_gap gap = lit " "
  <-> ~ paragraph_gap < inject_Z gap /\ ~ line_gap < inject_Z gap.
Proof.
  unfold breakFor. rewrite <- !Qltb_not_lt.
  destruct (Qltb paragraph_gap (inject_Z gap)).
  - split; [discriminate | intros [H _]; discriminate].
  - destruct (Qltb line_gap (inject_Z gap)).
    + split; [discriminate | intros [_ H]; discriminate].
    + tauto.
Qed.

Lemma formatSegments_snoc (before : list Segment) (previous next : Segment) :
  formatSegments paragraph_gap line_gap (before ++ [previous] ++ [next])
  = formatSegments paragraph_gap line_gap (before ++ [previous])
      ++ breakFor paragraph_gap line_gap (time next - time previous)
      ++ text next.
Proof.
  rewrite app_assoc. unfold formatSegments at 1.
  rewrite assemble_snoc by now destruct before.
  now rewrite assemble_lastTime.
Qed.

End Breaks.

Lemma simplifiedFrom_ext (pg lg pg' lg' : Q) (segments : list Segment) :
  (forall gap, breakFor pg lg gap = breakFor pg' lg' gap) ->
  forall lastTime formattedText,
    simplifiedFrom pg lg lastTime formattedText segments
    = simplifiedFrom pg' lg' lastTime formattedText segments.
Proof.
  intros H. induction segments as [|s l IH]; intros lastTime formattedText;
    simpl; trivial.
  now rewrite H, IH.
Qed.

(** X18.  When [paragraph_gap] does not exceed [line_gap], the line break is out
    of reach: the output is the one with [line_gap] set to
    [paragraph_gap], made of blank lines and single spaces only. *)
Theorem line_gap_above_paragraph_gap_is_idle (paragraph_gap line_gap : Q)
    (segments : list Segment) (Hgaps : paragraph_gap <= line_gap) :
  formatSegments paragraph_gap line_gap segments
  = formatSegments paragraph_gap paragraph_gap segments.
Proof.
  rewrite !formatSegments_simplified.
  destruct segments as [|first rest]; trivial. simpl.
  apply simplifiedFrom_ext. intros gap. unfold breakFor.
  destruct (Qltb paragraph_gap (inject_Z gap)) eqn:E1; trivial.
  destruct (Qltb line_gap (inject_Z gap)) eqn:E2; trivial.
  apply Qltb_not_lt in E1. apply Qltb_lt in E2.
  exfalso. apply E1. eapply Qle_lt_trans; eauto.
Qed.

Lemma line_gap_above_paragraph_gap_is_idle_witness :
  formatSegments 4 8 [segmentAt 0 "One."; segmentAt 6 "Two."]
  = formatSegments 4 4 [segmentAt 0 "One."; segmentAt 6 "Two."].
Proof.
  apply line_gap_above_paragraph_gap_is_idle. discriminate.
Defined.

(** X19.  With thresholds that are not negative, a segment whose time is not
    later than the time of the segment before it is joined with a single
    space: time stamps out of order never break the text. *)
Theorem earlier_stamp_joins_inline (paragraph_gap line_gap : Q)
    (before : list Segment) (previous next : Segment)
    (Hp : 0 <= paragraph_gap) (Hl : 0 <= line_gap)
    (Hback : (time next <= time previous)%Z) :
  formatSegments paragraph_gap line_gap (before ++ [previous] ++ [next])
  = formatSegments paragraph_gap line_gap (before ++ [previous])
      ++ lit " " ++ text next.
Proof.
  rewrite formatSegments_snoc. do 2 f_equal.
  assert (Hgap : inject_Z (time next - time previous) <= 0).
  { change 0 with (inject_Z 0). rewrite <- Zle_Qle. lia. }
  apply breakFor_inline. split; intros H.
  - apply (Qlt_irrefl paragraph_gap).
    eapply Qlt_le_trans; [exact H|]. eapply Qle_trans; eauto.
  - apply (Qlt_irrefl line_gap).
    eapply Qlt_le_trans; [exact H|]. eapply Qle_trans; eauto.
Qed.

Lemma earlier_stamp_joins_inline_witness :
  formatSegments 8 4 ([] ++ [segmentAt 50 "Later."] ++ [segmentAt 10 "Earlier."])
  = formatSegments 8 4 ([] ++ [segmentAt 50 "Later."])
      ++ lit " " ++ lit "Earlier.".
Proof.
  apply (@earlier_stamp_joins_inline 8 4 [] (segmentAt 50 "Later.")
           (segmentAt 10 "Earlier.")); try discriminate.
Defined.

(** X17.  The break grows with the gap.  Of two candidates for the next
    segment, if the earlier one comes after a blank line, so does the later
    one; and if the later one is joined with a single space, so is the
    earlier one. *)
Theorem break_grows_with_gap (paragraph_gap line_gap : Q)
    (before : list Segment) (previous sooner later : Segment)
    (Htimes : (time sooner <= time later)%Z) :
  let soFar := formatSegments paragraph_gap line_gap (before ++ [previous]) in
  let out next :=
    formatSegments paragraph_gap line_gap (before ++ [previous] ++ [next]) in
  (out sooner = soFar ++ [LF; LF] ++ text sooner ->
   out later = soFar ++ [LF; LF] ++ text later)
  /\ (out later = soFar ++ lit " " ++ text later ->
      out sooner = soFar ++ lit " " ++ text sooner).
Proof.
  intros soFar out. subst out soFar. cbv beta.
  rewrite !formatSegments_snoc.
  assert (Hgap : inject_Z (time sooner - time previous)
                 <= inject_Z (time later - time previous)).
  { rewrite <- Zle_Qle. lia. }
  split; intros H; apply app_inv_head, app_inv_tail in H;
    do 2 f_equal.
  - apply breakFor_paragraph. apply breakFor_paragraph in H.
    eapply Qlt_le_trans; eauto.
  - apply breakFor_inline. apply breakFor_inline in H.
    destruct H as [H1 H2]. split; intros H0.
    + apply H1. eapply Qlt_le_trans; eauto.
    + apply H2. eapply Qlt_le_trans; eauto.
Qed.

Lemma break_grows_with_gap_witness :
  formatSegments 8 4
    ([] ++ [segmentAt 0 "One."] ++ [segmentAt 20 "Two."])
  = formatSegments 8 4 ([] ++ [segmentAt 0 "One."])
      ++ [LF; LF] ++ lit "Two.".
Proof.
  refine (proj1 (@break_grows_with_gap 8 4 [] (segmentAt 0 "One.")
                   (segmentAt 9 "Two.") (segmentAt 20 "Two.") _) eq_refl).
  discriminate.
Defined.

(** ** Failures of the two operations *)

(** X20.  [formatTranscript] always answers for a text given directly, and fails
    only when it is given the path of a file that cannot be read; the
    message then carries the path and the cause. *)
Theorem formatTranscript_fails_only_on_file (fs : FileHandler.FileSystem)
    (params : FormatTranscriptParams) :
  (Formatting.is_file_path params <> Some true ->
   exists formatted_text, formatTranscript fs params = Ok formatted_text)
  /\ (forall message,
        formatTranscript fs params = Err message ->
        Formatting.is_file_path params = Some true
        /\ exists cause,
            FileHandler.readFile fs (Formatting.input_text params) = Err cause
            /\ message
               = lit "Formatting process failed: Failed to read file "
                   ++ Formatting.input_text params ++ lit ": " ++ cause).
Proof.
  unfold formatTranscript, FileHandler.resolveTextContent,
    FileHandler.readTextFile.
  destruct (Formatting.is_file_path params) as [[]|]; cbn [bind].
  - split; [intros H; now contradiction H|].
    destruct (FileHandler.readFile fs (Formatting.input_text params))
      as [content|cause]; cbn [bind]; intros message; [discriminate|].
    intros [= <-]. split; trivial. exists cause. split; reflexivity.
  - split; [eauto | discriminate].
  - split; [eauto | discriminate].
Qed.

Lemma formatTranscript_fails_only_on_file_witness :
  exists cause,
    FileHandler.readFile noFiles (lit "talk.txt") = Err cause
    /\ lit "Formatting process failed: Failed to read file talk.txt: ENOENT: no such file"
       = lit "Formatting process failed: Failed to read file "
           ++ lit "talk.txt" ++ lit ": " ++ cause.
Proof.
  exact (proj2 (proj2 (formatTranscript_fails_only_on_file noFiles
                         (transcriptFile (lit "talk.txt")))
                      _ eq_refl)).
Defined.

(** X10.  [summaryText] succeeds with the summary of the resolved content, and
    fails in two ways only: the file cannot be read, or the logger cannot
    write its record; the message carries the cause of either. *)
Theorem summaryText_outcomes (fs : FileHandler.FileSystem) (logger : Logger)
    (params : SummaryTextParams) :
  let file :=
    match Summary.is_file_path params with Some b => b | None => false end in
  let resolved :=
    FileHandler.resolveTextContent fs (Summary.input_text params) file in
  (forall summary,
      summaryText fs logger params = Ok summary ->
      exists textContent,
        resolved = Ok textContent
        /\ summary = fst (summarize textContent (constraint_type params)
                                    (constraint_value params)))
  /\ (forall message,
        summaryText fs logger params = Err message ->
        (exists cause,
            file = true
            /\ FileHandler.readFile fs (Summary.input_text params) = Err cause
            /\ message
               = lit "Summary process failed: Failed to read file "
                   ++ Summary.input_text params ++ lit ": " ++ cause)
        \/ (exists textContent cause,
               resolved = Ok textContent
               /\ (let logged :=
                      snd (summarize textContent (constraint_type params)
                                     (constraint_value params)) in
                   logSummaryProcess logger (fst logged) (snd logged)
                   = Err cause)
               /\ message = lit "Summary process failed: " ++ cause)).
Proof.
  intros file resolved. unfold summaryText. fold file. fold resolved.
  destruct resolved as [textContent|failure] eqn:Hres; cbn [bind].
  - destruct (summarize textContent _ _) as [summary [details stats]] eqn:Hsum.
    cbn [fst snd].
    destruct (logSummaryProcess logger details stats) as [path|cause] eqn:Hlog;
      cbn [bind].
    + split; [|discriminate]. intros s [= <-].
      exists textContent. split; [reflexivity | now rewrite Hsum].
    + split; [discriminate|]. intros message [= <-]. right.
      exists textContent, cause. split; [reflexivity|]. split; [|reflexivity].
      cbv zeta. now rewrite Hsum.
  - split; [discriminate|]. intros message [= <-]. left.
    subst resolved. unfold FileHandler.resolveTextContent in Hres.
    destruct file; [|discriminate].
    unfold FileHandler.readTextFile in Hres.
    destruct (FileHandler.readFile fs (Summary.input_text params))
      as [content|cause]; [discriminate|].
    injection Hres as <-. exists cause. repeat split.
Qed.

Lemma summaryText_outcomes_witness :
  exists textContent,
    FileHandler.resolveTextContent noFiles (lit "One. Two.") false
    = Ok textContent
    /\ lit "One."
       = fst (summarize textContent None None).
Proof.
  exact (proj1 (summaryText_outcomes noFiles quietLogger
                  (plainText (lit "One. Two.")))
               (lit "One.") eq_refl).
Defined.

(** ** Session identifiers and repair logs *)

Section SessionId.

Lemma digit_not_separator (c : char) :
  is_digit c = true -> negb (FileHandler.is_separator c) = true.
Proof.
  unfold is_digit, FileHandler.is_separator.
  rewrite andb_true_iff, !N.leb_le. intros [H1 H2].
  destruct (N.eqb_spec c 45); [lia|].
  destruct (N.eqb_spec c 58); [lia|].
  destruct (N.eqb_spec c 46); [lia|]. reflexivity.
Qed.

Lemma filter_digits (l rest : str) :
  digits l ->
  filter (fun c => negb (FileHandler.is_separator c)) (l ++ rest)
  = l ++ filter (fun c => negb (FileHandler.is_separator c)) rest.
Proof.
  induction 1 as [|c l Hc Hl IH]; simpl; trivial.
  now rewrite (digit_not_separator _ Hc), IH.
Qed.

End SessionId.

(** X21.  The session identifier of an instant is its date, the letter T, the
    hour, the minute and the tens of the seconds: the units of the seconds
    and the milliseconds are cut off, so two instants within the same ten
    seconds get the same identifier. *)
Theorem session_id_has_ten_second_resolution
    (year month day hour minute : str) (s1 s2 : char) (millis : str)
    (Hyear : length year = 4%nat) (Hmonth : length month = 2%nat)
    (Hday : length day = 2%nat) (Hhour : length hour = 2%nat)
    (Hminute : length minute = 2%nat)
    (Hdigits : digits year /\ digits month /\ digits day /\ digits hour
               /\ digits minute /\ is_digit s1 = true) :
  FileHandler.generateSessionId
    (isoString year month day hour minute s1 s2 millis)
  = year ++ month ++ day ++ [84%N] ++ hour ++ minute ++ [s1]
  /\ forall s2' millis',
      FileHandler.generateSessionId
        (isoString year month day hour minute s1 s2' millis')
      = FileHandler.generateSessionId
          (isoString year month day hour minute s1 s2 millis).
Proof.
  destruct Hdigits as (Dy & Dmo & Dd & Dh & Dmi & Ds).
  assert (E : forall u ms,
             FileHandler.generateSessionId
               (isoString year month day hour minute s1 u ms)
             = year ++ month ++ day ++ [84%N] ++ hour ++ minute ++ [s1]).
  { intros u ms. unfold FileHandler.generateSessionId, isoString.
    rewrite (filter_digits _ Dy). cbn [app filter FileHandler.is_separator N.eqb Pos.eqb orb negb].
    rewrite (filter_digits _ Dmo). cbn [app filter FileHandler.is_separator N.eqb Pos.eqb orb negb].
    rewrite (filter_digits _ Dd). cbn [app filter FileHandler.is_separator N.eqb Pos.eqb orb negb].
    rewrite (filter_digits _ Dh). cbn [app filter FileHandler.is_separator N.eqb Pos.eqb orb negb].
    rewrite (filter_digits _ Dmi). cbn [app filter FileHandler.is_separator N.eqb Pos.eqb orb negb].
    rewrite (digit_not_separator _ Ds).
    destruct year as [|y1 [|y2 [|y3 [|y4 [|]]]]]; try discriminate.
    destruct month as [|mo1 [|mo2 [|]]]; try discriminate.
    destruct day as [|d1 [|d2 [|]]]; try discriminate.
    destruct hour as [|h1 [|h2 [|]]]; try discriminate.
    destruct minute as [|mi1 [|mi2 [|]]]; try discriminate.
    reflexivity. }
  split; [apply E|]. intros s2' millis'. now rewrite !E.
Qed.

Lemma session_id_has_ten_second_resolution_witness :
  FileHandler.generateSessionId (lit "2024-01-15T10:30:45.123Z")
  = lit "20240115T10304".
Proof.
  refine (proj1 (@session_id_has_ten_second_resolution
                   (lit "2024") (lit "01") (lit "15") (lit "10") (lit "30")
                   52%N 53%N (lit "123")
                   eq_refl eq_refl eq_refl eq_refl eq_refl _)).
  repeat split; repeat constructor.
Defined.

(** X22.  [getRepairLog] answers with the path /logs/repairs/<session>.log when
    that file can be read, and otherwise fails with a message that names
    the session and not the cause; the session identifier goes into the
    path as it is. *)
Theorem getRepairLog_outcomes (fs : FileHandler.FileSystem) (session_id : str) :
  let logPath := lit "/logs/repairs/" ++ session_id ++ lit ".log" in
  (forall log_file,
      Repair.getRepairLog fs session_id = Ok log_file ->
      log_file = logPath
      /\ exists content, FileHandler.readFile fs logPath = Ok content)
  /\ (forall message,
        Repair.getRepairLog fs session_id = Err message ->
        message
        = lit "Failed to retrieve repair log: Repair log not found for session "
            ++ session_id
        /\ exists cause, FileHandler.readFile fs logPath = Err cause).
Proof.
  intros logPath. unfold Repair.getRepairLog, FileHandler.readTextFile.
  fold logPath.
  destruct (FileHandler.readFile fs logPath) as [content|cause].
  - split; [|discriminate]. intros log_file [= <-]. eauto.
  - split; [discriminate|]. intros message [= <-]. eauto.
Qed.

Lemma getRepairLog_outcomes_witness :
  lit "Failed to retrieve repair log: Repair log not found for session 20240115T10304"
  = lit "Failed to retrieve repair log: Repair log not found for session "
      ++ lit "20240115T10304".
Proof.
  exact (proj1 (proj2 (getRepairLog_outcomes noFiles (lit "20240115T10304"))
                      _ eq_refl)).
Defined.

(** ** The repair dictionary *)

Section Regex.

Variables pattern replacement : str.

Lemma matchesAt_length (s : str) :
  Repair.matchesAt pattern s = true -> (length pattern <= length s)%nat.
Proof.
  revert s. induction pattern as [|p ps IH]; intros s H; simpl; [lia|].
  destruct s as [|c s]; [discriminate|]. simpl in H.
  apply andb_true_iff in H. destruct H as [_ H]. apply IH in H. simpl. lia.
Qed.

Lemma matchesAt_firstn (s : str) :
  Repair.matchesAt pattern s = true ->
  Repair.matchesAt pattern (firstn (length pattern) s) = true.
Proof.
  revert s. induction pattern as [|p ps IH]; intros s H; trivial.
  destruct s as [|c s]; [discriminate|]. simpl in *.
  apply andb_true_iff in H. destruct H as [H1 H2].
  now rewrite H1, IH.
Qed.

Lemma firstn_isMatch (s : str) :
  Repair.matchesAt pattern s = true ->
  isMatch pattern (firstn (length pattern) s).
Proof.
  intros H. split; [now apply matchesAt_firstn|].
  rewrite length_firstn. apply matchesAt_length in H. lia.
Qed.

Lemma matchAll_go_matches (s : str) :
  forall skip, Forall (isMatch pattern) (Repair.matchAll_go pattern skip s).
Proof.
  induction s as [|c s IH]; intros skip; simpl; [constructor|].
  destruct skip; [|apply IH].
  destruct (Repair.matchesAt pattern (c :: s)) eqn:E; [|apply IH].
  constructor; [|apply IH]. now apply firstn_isMatch.
Qed.

Lemma matchAll_go_occur (s : str) :
  forall skip,
    Forall (fun m => occursIn m s) (Repair.matchAll_go pattern skip s).
Proof.
  induction s as [|c s IH]; intros skip; simpl; [constructor|].
  assert (Hlater : forall k,
             Forall (fun m => occursIn m (c :: s))
                    (Repair.matchAll_go pattern k s)).
  { intros k. eapply Forall_impl; [|apply IH].
    intros m (a & b & ->). now exists (c :: a), b. }
  destruct skip; [|apply Hlater].
  destruct (Repair.matchesAt pattern (c :: s)) eqn:E; [|apply Hlater].
  constructor; [|apply Hlater].
  exists [], (skipn (length pattern) (c :: s)).
  now rewrite app_nil_l, firstn_skipn.
Qed.

Lemma replace_go_skip (s : str) :
  forall skip,
    (length s <= skip)%nat ->
    Repair.replace_go pattern replacement skip s = [].
Proof.
  induction s as [|c s IH]; intros skip H; simpl; trivial.
  destruct skip; [simpl in H; lia|]. apply IH. simpl in H. lia.
Qed.

Lemma replace_isMatch (m : str) :
  pattern <> [] -> isMatch pattern m ->
  Repair.replace pattern replacement m = replacement.
Proof.
  intros Hne [Hm Hlen]. unfold Repair.replace.
  destruct m as [|c m].
  - destruct pattern; [contradiction | discriminate].
  - cbn [Repair.replace_go]. rewrite Hm.
    rewrite replace_go_skip; [apply app_nil_r|].
    simpl in Hlen. lia.
Qed.

End Regex.

Section IndexOf.

Lemma startsWith_prefix (x s : str) :
  Repair.startsWith x s = true <-> exists b, s = x ++ b.
Proof.
  revert s. induction x as [|a x IH]; intros s; simpl.
  - split; eauto.
  - destruct s as [|c s].
    + split; [discriminate | intros [b H]; discriminate].
    + rewrite andb_true_iff, N.eqb_eq, IH. split.
      * intros [-> [b ->]]. eauto.
      * intros [b [= -> ->]]. eauto.
Qed.

Lemma indexOf_from_found (x s : str) :
  forall k,
    occursIn x s ->
    exists a b,
      s = a ++ x ++ b
      /\ Repair.indexOf_from x k s = (k + Z.of_nat (length a))%Z.
Proof.
  induction s as [|c s IH]; intros k (a & b & E).
  - destruct a, x; try discriminate. exists [], []. split; trivial.
    simpl. lia.
  - cbn [Repair.indexOf_from].
    destruct (Repair.startsWith x (c :: s)) eqn:Hs.
    + apply startsWith_prefix in Hs. destruct Hs as [b' ->].
      exists [], b'. split; trivial. simpl. lia.
    + destruct a as [|c' a].
      * exfalso. assert (H : Repair.startsWith x (c :: s) = true).
        { apply startsWith_prefix. exists b. exact E. }
        congruence.
      * injection E as <- E.
        destruct (IH (k + 1)%Z) as (a' & b' & E' & Hi); [now exists a, b|].
        exists (c :: a'), b'. split; [now rewrite E'|].
        rewrite Hi. simpl length. lia.
Qed.

Lemma substring_around (a m b : str) :
  let s := a ++ m ++ b in
  let i := Z.of_nat (length a) in
  exists pre post,
    Repair.substring s (Z.max 0 (i - 20))
      (Z.min (Z.of_nat (length s)) (i + Z.of_nat (length m) + 20))
    = pre ++ m ++ post
    /\ (length pre <= 20)%nat /\ (length post <= 20)%nat.
Proof.
  intros s i.
  set (from := (length a - 20)%nat).
  set (to := Nat.min (length s) (length a + length m + 20)).
  assert (Hs : length s = (length a + length m + length b)%nat).
  { subst s. rewrite !length_app. lia. }
  assert (E : Repair.substring s (Z.max 0 (i - 20))
                (Z.min (Z.of_nat (length s)) (i + Z.of_nat (length m) + 20))
              = skipn from (firstn to s)).
  { unfold Repair.substring. f_equal; [|f_equal]; subst from to i; lia. }
  rewrite E. subst s.
  exists (skipn from a), (firstn (to - length a - length m) b).
  split; [|split].
  - rewrite firstn_app.
    replace (firstn to a) with a by (symmetry; apply firstn_all2; subst to; lia).
    rewrite firstn_app.
    replace (firstn (to - length a) m) with m
      by (symmetry; apply firstn_all2; subst to; lia).
    rewrite skipn_app.
    replace (from - length a)%nat with 0%nat by (subst from; lia).
    reflexivity.
  - rewrite length_skipn. subst from. lia.
  - rewrite length_firstn. subst to. lia.
Qed.

End IndexOf.

Section Corrections.

Lemma pattern_nonempty (e : Repair.CommonError) :
  In e Repair.commonErrors -> Repair.pattern e <> [].
Proof.
  intros [<-|[<-|[<-|[<-|[<-|[]]]]]]; discriminate.
Qed.

Lemma confidence_range (e : Repair.CommonError) :
  In e Repair.commonErrors -> (91 <= Repair.errorConfidence e <= 97)%Z.
Proof.
  intros [<-|[<-|[<-|[<-|[<-|[]]]]]]; simpl; lia.
Qed.

Lemma confidenceSum_snoc (cs : list Repair.Correction) (c : Repair.Correction) :
  confidenceSum (cs ++ [c]) = (confidenceSum cs + Repair.confidence c)%Z.
Proof.
  unfold confidenceSum. induction cs as [|c0 cs IH]; simpl; [lia|].
  rewrite IH. lia.
Qed.

Lemma recordMatch_sound (e : Repair.CommonError) (repairedText m : str)
    (found : list Repair.Correction * Z) :
  In e Repair.commonErrors ->
  occursIn m repairedText -> isMatch (Repair.pattern e) m ->
  soundRecord found -> soundRecord (Repair.recordMatch e repairedText found m).
Proof.
  intros He Hocc Hm (Hd & Hq & Ht). destruct found as [cs total].
  unfold Repair.recordMatch. cbn [fst snd] in *.
  split; [|split]; cbn [fst snd].
  - apply Forall_app. split; trivial. constructor; [|constructor].
    exists e. cbn. destruct Hm as [Hm Hlen].
    repeat split; trivial.
    apply replace_isMatch; [now apply pattern_nonempty | now split].
  - apply Forall_app. split; trivial. constructor; [|constructor].
    unfold quotesOriginal. cbn [Repair.context Repair.original].
    unfold Repair.indexOf.
    destruct (@indexOf_from_found m repairedText 0 Hocc) as (a & b & -> & ->).
    rewrite Z.add_0_l. apply substring_around.
  - rewrite confidenceSum_snoc. cbn. now rewrite Ht.
Qed.

Lemma recordMatches_sound (e : Repair.CommonError) (repairedText : str)
    (matches : list str) :
  In e Repair.commonErrors ->
  Forall (fun m => occursIn m repairedText) matches ->
  Forall (isMatch (Repair.pattern e)) matches ->
  forall found,
    soundRecord found ->
    soundRecord (fold_left (Repair.recordMatch e repairedText) matches found).
Proof.
  intros He Hocc Hm. induction matches as [|m ms IH]; intros found Hf; trivial.
  apply Forall_cons_iff in Hocc. apply Forall_cons_iff in Hm.
  simpl. apply IH; try tauto. apply recordMatch_sound; tauto.
Qed.

Lemma applyError_sound (e : Repair.CommonError)
    (state : str * (list Repair.Correction * Z)) :
  In e Repair.commonErrors ->
  soundRecord (snd state) -> soundRecord (snd (Repair.applyError state e)).
Proof.
  intros He Hs. destruct state as [repairedText found].
  unfold Repair.applyError.
  destruct (Repair.test (Repair.pattern e) repairedText); trivial.
  cbn [snd]. apply recordMatches_sound; trivial.
  - apply matchAll_go_occur.
  - apply matchAll_go_matches.
Qed.

Lemma applyErrors_sound (errors : list Repair.CommonError) :
  incl errors Repair.commonErrors ->
  forall state,
    soundRecord (snd state) ->
    soundRecord (snd (fold_left Repair.applyError errors state)).
Proof.
  induction errors as [|e es IH]; intros Hincl state Hs; trivial.
  simpl. apply IH.
  - intros x Hx. apply Hincl. now right.
  - apply applyError_sound; trivial. apply Hincl. now left.
Qed.

Lemma repair_record (textContent : str) :
  exists repairedText corrections totalConfidence,
    fold_left Repair.applyError Repair.commonErrors (textContent, ([], 0%Z))
    = (repairedText, (corrections, totalConfidence))
    /\ soundRecord (corrections, totalConfidence)
    /\ Repair.repair textContent
       = (repairedText,
          (corrections,
           {| Repair.totalWords := length (split_ws textContent);
              Repair.correctionsMade := length corrections;
              Repair.averageConfidence :=
                if (0 <? length corrections)%nat
                then Repair.round (inject_Z totalConfidence
                                   / Qnat (length corrections))
                else 0%Z |})).
Proof.
  pose proof (@applyErrors_sound Repair.commonErrors (incl_refl _)
                (textContent, ([], 0%Z))) as H.
  unfold Repair.repair.
  destruct (fold_left Repair.applyError Repair.commonErrors
                      (textContent, ([], 0%Z)))
    as [repairedText [corrections totalConfidence]].
  exists repairedText, corrections, totalConfidence.
  split; trivial. split; trivial.
  apply H. repeat split; constructor.
Qed.

Lemma confidenceSum_range (cs : list Repair.Correction) :
  Forall fromDictionary cs ->
  (91 * Z.of_nat (length cs) <= confidenceSum cs <= 97 * Z.of_nat (length cs))%Z.
Proof.
  unfold confidenceSum.
  induction 1 as [|c cs (e & He & _ & _ & _ & Hc) Hcs IH]; [simpl; lia|].
  cbn [map fold_right length].
  pose proof (confidence_range He). rewrite Hc.
  rewrite Nat2Z.inj_succ. lia.
Qed.

Lemma round_average (total : Z) (n : nat) :
  (0 < n)%nat ->
  (91 * Z.of_nat n <= total <= 97 * Z.of_nat n)%Z ->
  (91 <= Repair.round (inject_Z total / Qnat n) <= 97)%Z.
Proof.
  intros Hn [Hlo Hhi].
  assert (Hq : 0 < Qnat n) by (apply (Qnat_lt (a := 0)); lia).
  assert (H1 : 91 <= inject_Z total / Qnat n).
  { apply Qle_shift_div_l; trivial.
    unfold Qnat. change 91 with (inject_Z 91).
    rewrite <- inject_Z_mult, <- Zle_Qle. lia. }
  assert (H2 : inject_Z total / Qnat n <= 97).
  { apply Qle_shift_div_r; trivial.
    unfold Qnat. change 97 with (inject_Z 97).
    rewrite <- inject_Z_mult, <- Zle_Qle. lia. }
  unfold Repair.round. split.
  - change 91%Z with (Qfloor (91 + (1 # 2))).
    apply Qfloor_resp_le. lra.
  - change 97%Z with (Qfloor (97 + (1 # 2))).
    apply Qfloor_resp_le. lra.
Qed.

End Corrections.

(** X23.  Every correction comes from the dictionary: its original is a match
    of one of the five misspellings in some letter case, its corrected text
    is the replacement of that entry as the dictionary spells it, and its
    confidence is the one of the entry. *)
Theorem corrections_come_from_dictionary (textContent : str) :
  Forall fromDictionary (fst (snd (Repair.repair textContent))).
Proof.
  destruct (repair_record textContent) as (t & cs & total & _ & H & ->).
  apply H.
Qed.

(** X24.  The context of every correction quotes its original, with at most 20
    code units of the text before it and after it. *)
Theorem correction_context_quotes_original (textContent : str) :
  Forall quotesOriginal (fst (snd (Repair.repair textContent))).
Proof.
  destruct (repair_record textContent) as (t & cs & total & _ & H & ->).
  apply H.
Qed.

(** X25.  The statistics count the corrections, and the average confidence is 0
    without corrections and lies between 91 and 97 with some. *)
Theorem average_confidence_range (textContent : str) :
  let corrections := fst (snd (Repair.repair textContent)) in
  let stats := snd (snd (Repair.repair textContent)) in
  Repair.correctionsMade stats = length corrections
  /\ (corrections = [] -> Repair.averageConfidence stats = 0%Z)
  /\ (corrections <> [] ->
      (91 <= Repair.averageConfidence stats <= 97)%Z).
Proof.
  destruct (repair_record textContent)
    as (t & cs & total & _ & (Hd & _ & Ht) & ->).
  cbn [fst snd Repair.correctionsMade Repair.averageConfidence] in *.
  split; [reflexivity|]. split.
  - intros ->. reflexivity.
  - intros Hne.
    assert (Hn : (0 < length cs)%nat) by (destruct cs; [contradiction|simpl; lia]).
    apply Nat.ltb_lt in Hn. rewrite Hn. apply Nat.ltb_lt in Hn.
    apply round_average; trivial.
    rewrite Ht. now apply confidenceSum_range.
Qed.

Lemma average_confidence_range_witness :
  (91 <= Repair.averageConfidence
           (snd (snd (Repair.repair (lit "I recieve alot."))))
   <= 97)%Z.
Proof.
  apply (proj2 (proj2 (average_confidence_range (lit "I recieve alot.")))).
  discriminate.
Defined.

Section CleanText.

Lemma matchesAt_app (pattern m b : str) :
  Repair.matchesAt pattern m = true -> Repair.matchesAt pattern (m ++ b) = true.
Proof.
  revert m. induction pattern as [|p ps IH]; intros m H; trivial.
  destruct m as [|c m]; [discriminate|]. simpl in *.
  apply andb_true_iff in H. destruct H as [H1 H2]. now rewrite H1, IH.
Qed.

(** [test] finds a match exactly when one stands in the text. *)
Lemma test_occurs (pattern s : str) :
  Repair.test pattern s = true
  <-> exists m, isMatch pattern m /\ occursIn m s.
Proof.
  split.
  - induction s as [|c s IH]; cbn [Repair.test]; intros H.
    + rewrite orb_false_r in H.
      exists (firstn (length pattern) []). split; [now apply firstn_isMatch|].
      exists [], []. now destruct pattern.
    + apply orb_true_iff in H. destruct H as [H|H].
      * exists (firstn (length pattern) (c :: s)).
        split; [now apply firstn_isMatch|].
        exists [], (skipn (length pattern) (c :: s)).
        now rewrite app_nil_l, firstn_skipn.
      * destruct (IH H) as (m & Hm & a & b & ->).
        exists m. split; trivial. now exists (c :: a), b.
  - intros (m & [Hm _] & a & b & ->).
    induction a as [|c a IH].
    + simpl app. destruct (m ++ b) eqn:E; cbn [Repair.test];
        rewrite <- E, matchesAt_app; trivial.
    + cbn [app Repair.test]. rewrite IH. apply orb_true_r.
Qed.

Lemma applyErrors_clean (textContent : str) (errors : list Repair.CommonError) :
  (forall e, In e errors -> Repair.test (Repair.pattern e) textContent = false) ->
  forall found,
    fold_left Repair.applyError errors (textContent, found)
    = (textContent, found).
Proof.
  induction errors as [|e es IH]; intros H found; trivial.
  cbn [fold_left Repair.applyError]. rewrite (H e (or_introl eq_refl)).
  apply IH. intros e' He'. apply H. now right.
Qed.

End CleanText.

(** X26.  A text in which none of the five misspellings stands, in whatever
    letter case, comes back as it is, with no correction and an average
    confidence of 0. *)
Theorem clean_text_is_unchanged (textContent : str)
    (Hclean : forall e m,
        In e Repair.commonErrors -> isMatch (Repair.pattern e) m ->
        ~ occursIn m textContent) :
  Repair.repair textContent
  = (textContent,
     ([], {| Repair.totalWords := length (split_ws textContent);
             Repair.correctionsMade := 0;
             Repair.averageConfidence := 0 |})).
Proof.
  unfold Repair.repair. rewrite applyErrors_clean; trivial.
  intros e He. apply not_true_iff_false. intros H.
  apply test_occurs in H. destruct H as (m & Hm & Ho).
  exact (Hclean e m He Hm Ho).
Qed.

Lemma clean_text_is_unchanged_witness :
  fst (Repair.repair (lit "We receive a lot.")) = lit "We receive a lot.".
Proof.
  refine (f_equal fst (@clean_text_is_unchanged (lit "We receive a lot.") _)).
  intros e m He Hm Ho.
  assert (H : Repair.test (Repair.pattern e) (lit "We receive a lot.") = true).
  { apply test_occurs. now exists m. }
  destruct He as [<-|[<-|[<-|[<-|[<-|[]]]]]]; discriminate H.
Defined.

(** X27.  [repairText] answers with the one name repaired.txt whatever its
    input: when it succeeds, the content was resolved and the repaired text
    was written under that name. *)
Theorem repairText_writes_repaired_txt (fs : FileHandler.FileSystem)
    (disk : FileHandler.Disk) (logger : Repair.Logger)
    (params : Repair.RepairTextParams) (output_file : str)
    (Hok : Repair.repairText fs disk logger params = Ok output_file) :
  output_file = lit "repaired.txt"
  /\ exists textContent,
      FileHandler.resolveTextContent fs (Repair.input_text params)
        (match Repair.is_file_path params with Some b => b | None => false end)
      = Ok textContent
      /\ FileHandler.writeTextFile disk (lit "repaired.txt")
           (fst (Repair.repair textContent))
         = Ok tt.
Proof.
  unfold Repair.repairText in Hok.
  destruct (FileHandler.resolveTextContent fs _ _) as [textContent|failure]
    eqn:Hres; cbn [bind] in Hok; [|discriminate].
  destruct (Repair.repair textContent) as [repairedText [corrections stats]]
    eqn:Hrep.
  destruct (FileHandler.writeTextFile disk _ repairedText) as [[]|failure] eqn:Hw;
    cbn [bind] in Hok; [|discriminate].
  destruct (Repair.logRepairProcess logger _ corrections stats);
    cbn [bind] in Hok; [|discriminate].
  injection Hok as <-. split; trivial. exists textContent.
  split; [reflexivity | now rewrite Hrep].
Qed.

Lemma repairText_writes_repaired_txt_witness :
  lit "repaired.txt" = lit "repaired.txt"
  /\ exists textContent,
      FileHandler.resolveTextContent noFiles (lit "I recieve alot.") false
      = Ok textContent
      /\ FileHandler.writeTextFile openDisk (lit "repaired.txt")
           (fst (Repair.repair textContent))
         = Ok tt.
Proof.
  exact (@repairText_writes_repaired_txt noFiles openDisk quietRepairLogger
           (directText (lit "I recieve alot.")) (lit "repaired.txt") eq_refl).
Defined.

(** ** Long sentences *)

Section LongSentences.

Lemma sort_sorted (A : Type) (after : A -> A -> bool) (l : list A) :
  StronglySorted (fun a b => after a b = false) l -> JS.sort after l = l.
Proof.
  induction 1 as [|x l Hl IH Hx]; trivial.
  cbn [JS.sort fold_right]. fold (JS.sort after l). rewrite IH.
  destruct l as [|y l]; trivial. simpl.
  apply Forall_inv in Hx. now rewrite Hx.
Qed.

Lemma In_mapi_from (A B : Type) (f : A -> nat -> B) (l : list A) :
  forall k y,
    In y (mapi_from f k l) ->
    exists x i, In x l /\ (k <= i < k + length l)%nat /\ y = f x i.
Proof.
  induction l as [|x l IH]; intros k y H; [contradiction|].
  destruct H as [<-|H].
  - exists x, k. simpl. repeat split; auto; lia.
  - destruct (IH _ _ H) as (x' & i & Hin & Hi & ->).
    exists x', i. simpl. repeat split; auto; lia.
Qed.

Lemma long_scores_sorted (N : nat) (l : list str) :
  Forall (fun s => (100 <= length s)%nat) l ->
  forall k,
    StronglySorted (fun a b => byScore a b = false)
      (mapi_from (fun sentence index =>
                    {| sentence := sentence;
                       score :=
                         Double.add
                           (Double.mul (positionScore index N)
                                       (Double.literal 0.7))
                           (Double.mul (lengthScore sentence)
                                       (Double.literal 0.3)) |}) k l).
Proof.
  induction 1 as [|s l Hs Hl IH]; intros k; simpl; constructor.
  - apply IH.
  - apply Forall_forall. intros item Hitem.
    apply In_mapi_from in Hitem. destruct Hitem as (s' & j & Hin & Hj & ->).
    apply byScore_not_lt; cbn [score]; try apply nearest_representable.
    destruct weights as (w7 & _ & _ & _ & w3 & _).
    apply nearest_mono. apply Qplus_le_compat; apply nearest_mono.
    + apply Qmult_le_compat_r; [|lra].
      apply positionScore_antitone. lia.
    + apply Qmult_le_compat_r; [|lra].
      rewrite (proj2 (lengthScore_cap s) Hs). apply lengthScore_cap.
Qed.

End LongSentences.

(** X7.  When every sentence has 100 characters or more, the ranking is the
    order of the document, and the selection is the beginning of the
    document: its first [k] sentences. *)
Theorem long_sentences_keep_document_order (textContent : str)
    (constraint_type : option ConstraintType) (constraint_value : option Q)
    (Hlong : Forall (fun s => (100 <= length s)%nat)
                    (matchSentences textContent)) :
  let sentences := matchSentences textContent in
  JS.sort byScore (sentenceScores sentences) = sentenceScores sentences
  /\ exists k,
      fst (select (targetMetric constraint_type)
             (targetLength constraint_type constraint_value
                (length (split_ws textContent)) (length textContent))
             (JS.sort byScore (sentenceScores sentences)) [] 0)
      = firstn k sentences.
Proof.
  intros sentences.
  assert (E : JS.sort byScore (sentenceScores sentences)
              = sentenceScores sentences).
  { apply sort_sorted. unfold sentenceScores, mapi.
    now apply long_scores_sorted. }
  split; trivial.
  destruct (selected_prefix textContent constraint_type constraint_value)
    as (k & _ & Hsel & _).
  exists k. fold sentences in Hsel. rewrite Hsel, E.
  now rewrite <- firstn_map, map_sentence_sentenceScores.
Qed.

Lemma long_sentences_keep_document_order_witness :
  JS.sort byScore (sentenceScores (matchSentences longDocument))
  = sentenceScores (matchSentences longDocument).
Proof.
  refine (proj1 (@long_sentences_keep_document_order longDocument None None _)).
  apply Forall_forall. intros s Hs. apply Nat.leb_le. revert s Hs.
  apply (proj1 (forallb_forall (fun s => (100 <=? length s)%nat)
                               (matchSentences longDocument))).
  vm_compute. reflexivity.
Defined.

(** ** Rounding and the ranking *)

(** X28.  Rounding decides the ranking where the exact composites are equal.
    At index 2 of 10 with 20 characters and at index 5 with 90 characters
    the exact composite is 0.62; the doubles the code stores are
    0.6199999999999999 and 0.62, so that the sixth sentence is read before
    the third, and a budget of 150 characters selects the first, the second
    and the sixth sentence. *)
Theorem rounding_decides_the_ranking :
  let sentences := matchSentences unevenDocument in
  let ranked := JS.sort byScore (sentenceScores sentences) in
  map (@length char) sentences = [30; 30; 20; 30; 30; 90; 30; 30; 30; 30]%nat
  /\ compositeScore 2 10 20 == compositeScore 5 10 90
  /\ (exists third sixth,
        nth_error (sentenceScores sentences) 2 = Some third
        /\ nth_error (sentenceScores sentences) 5 = Some sixth
        /\ score third == 5584463537939414 # 9007199254740992
        /\ score sixth == 5584463537939415 # 9007199254740992)
  /\ map (fun item => length (sentence item)) ranked
     = [30; 30; 90; 20; 30; 30; 30; 30; 30; 30]%nat
  /\ map (@length char) (fst (select CharsMetric 150 ranked [] 0))
     = [30; 30; 90]%nat.
Proof.
  intros sentences ranked. split; [vm_compute; reflexivity|].
  split; [vm_compute; reflexivity|]. split; [|split; vm_compute; reflexivity].
  assert (E : sentences
              = map sized [30; 30; 20; 30; 30; 90; 30; 30; 30; 30]%nat)
    by (vm_compute; reflexivity).
  rewrite E. unfold sentenceScores, mapi. rewrite !nth_error_mapi_from.
  cbn [map nth_error option_map]. eexists. eexists.
  split; [reflexivity|]. split; [reflexivity|].
  split; vm_compute; reflexivity.
Qed.

(** At index 0 of 20 with 19 characters and at index 3 with 54 characters
    the exact composite is 0.757; the double of the fourth sentence is the
    larger one. *)
Example first_sentence_outranked :
  compositeScore 0 20 19 == compositeScore 3 20 54
  /\ Double.add (Double.mul (positionScore 0 20) (Double.literal 0.7))
                (Double.mul (lengthScore (sized 19)) (Double.literal 0.3))
     < Double.add (Double.mul (positionScore 3 20) (Double.literal 0.7))
                  (Double.mul (lengthScore (sized 54)) (Double.literal 0.3)).
Proof.
  split; [vm_compute; reflexivity|].
  apply Qlt_alt. vm_compute. reflexivity.
Qed.

(** ** Transcripts without time stamps, and line feeds *)

Section PlainTranscript.

Lemma join_cons (x : str) (l : list str) :
  join (lit " ") (map Some (x :: l))
  = x ++ concat (map (fun y => lit " " ++ y) l).
Proof.
  revert x. induction l as [|y l IH]; intros x.
  - simpl. now rewrite app_nil_r.
  - change (join (lit " ") (map Some (x :: y :: l)))
      with (x ++ lit " " ++ join (lit " ") (map Some (y :: l))).
    rewrite IH. cbn [map concat]. now rewrite <- !app_assoc.
Qed.

Lemma parse_unstamped (lines : list str) :
  Forall (fun l => stamped l = false) lines ->
  forall t words,
    fold_left parseLine lines [{| time := t; text := words |}]
    = [{| time := t;
          text := words ++ concat (map (fun l => lit " " ++ trim l) lines) |}].
Proof.
  induction 1 as [|l ls Hl Hls IH]; intros t words; simpl.
  - now rewrite app_nil_r.
  - unfold parseLine at 2. unfold stamped in Hl.
    destruct (matchTimestamp l); [discriminate|].
    cbn [length Nat.ltb Nat.leb appendToLast time text].
    rewrite IH. now rewrite <- !app_assoc.
Qed.

Lemma trimEnd_suffix (P : char -> Prop) (s : str) :
  Forall P s -> Forall P (trimEnd s).
Proof.
  induction 1 as [|c s Hc Hs IH]; simpl; [constructor|].
  destruct (trimEnd s); [destruct (is_space c)|]; auto.
Qed.

Lemma trim_keeps (P : char -> Prop) (s : str) :
  Forall P s -> Forall P (trim s).
Proof. intros H. now apply trimEnd_suffix, trimStart_suffix. Qed.

Lemma dotStar_keeps (P : char -> Prop) (s : str) :
  Forall P s -> Forall P (dotStar s).
Proof.
  induction 1 as [|c s Hc Hs IH]; simpl; [constructor|].
  destruct (is_line_terminator c); auto.
Qed.

Lemma timestampAt_keeps (P : char -> Prop) (s : str) (h m sec : Z) (g : str) :
  timestampAt s = Some (h, m, sec, g) -> Forall P s -> Forall P g.
Proof.
  unfold timestampAt.
  destruct s as [|b1 [|h1 [|h2 [|c1 [|m1 [|m2 [|c2 [|s1 [|s2 [|b2 rest]]]]]]]]]];
    try discriminate.
  destruct (_ && _)%bool; [|discriminate].
  intros [= _ _ _ <-] H.
  do 10 (apply Forall_inv_tail in H).
  now apply dotStar_keeps, trimStart_suffix.
Qed.

Lemma matchTimestamp_keeps (P : char -> Prop) (line : str) (h m sec : Z)
    (g : str) :
  matchTimestamp line = Some (h, m, sec, g) -> Forall P line -> Forall P g.
Proof.
  induction line as [|c line IH]; [discriminate|].
  cbn [matchTimestamp].
  destruct (timestampAt (c :: line)) as [[[[h' m'] sec'] g']|] eqn:E.
  - intros [= <- <- <- <-] H. exact (timestampAt_keeps E H).
  - intros H1 H2. apply IH; trivial. now apply Forall_inv_tail in H2.
Qed.

Lemma appendToLast_keeps (segments : list Segment) (more : str) :
  oneLine more ->
  Forall oneLine (map text segments) ->
  Forall oneLine (map text (appendToLast segments more)).
Proof.
  intros Hm. induction segments as [|s [|s' l] IH]; intros H; trivial.
  - simpl. constructor; [|constructor]. apply Forall_inv in H.
    apply Forall_app. now split.
  - change (appendToLast (s :: s' :: l) more)
      with (s :: appendToLast (s' :: l) more).
    cbn [map]. apply Forall_cons_iff in H. constructor; [tauto|].
    apply IH. tauto.
Qed.

Lemma parseLine_keeps (segments : list Segment) (line : str) :
  oneLine line ->
  Forall oneLine (map text segments) ->
  Forall oneLine (map text (parseLine segments line)).
Proof.
  intros Hl Hs. unfold parseLine.
  destruct (matchTimestamp line) as [[[[h m] sec] g]|] eqn:E.
  - rewrite map_app. apply Forall_app. split; trivial.
    constructor; [|constructor]. cbn [text].
    apply trim_keeps. exact (matchTimestamp_keeps E Hl).
  - destruct (0 <? length segments)%nat.
    + apply appendToLast_keeps; trivial.
      apply Forall_app. split; [repeat constructor; discriminate|].
      now apply trim_keeps.
    + rewrite map_app. apply Forall_app. split; trivial.
      constructor; [|constructor]. now apply trim_keeps.
Qed.

Lemma splitLines_oneLine (s : str) : Forall oneLine (splitLines s).
Proof.
  induction s as [|c s IH]; simpl; [repeat constructor|].
  destruct (N.eqb_spec c 10) as [->|Hc].
  - constructor; [constructor | exact IH].
  - destruct (splitLines s) as [|l ls]; [repeat constructor; exact Hc|].
    apply Forall_cons_iff in IH. constructor; [|tauto].
    constructor; [exact Hc | tauto].
Qed.

End PlainTranscript.

(** X16.  A transcript without any time stamp comes back as one paragraph: its
    lines, trimmed, joined by single spaces, whatever the thresholds. *)
Theorem unstamped_transcript_is_one_paragraph (textContent : str)
    (paragraph_gap line_gap : Q)
    (Hplain : Forall (fun l => stamped l = false)
                     (splitLines (trim textContent))) :
  formatSegments paragraph_gap line_gap (parseSegments textContent)
  = join (lit " ") (map Some (map trim (splitLines (trim textContent)))).
Proof.
  unfold parseSegments.
  destruct (splitLines (trim textContent)) as [|l ls]; [reflexivity|].
  apply Forall_cons_iff in Hplain. destruct Hplain as [Hl Hls].
  cbn [fold_left]. unfold parseLine at 2. unfold stamped in Hl.
  destruct (matchTimestamp l); [discriminate|].
  cbn [length Nat.ltb Nat.leb app].
  rewrite (parse_unstamped Hls).
  change (map trim (l :: ls)) with (trim l :: map trim ls).
  rewrite join_cons, map_map. reflexivity.
Qed.

Lemma unstamped_transcript_is_one_paragraph_witness :
  formatSegments 8 4 (parseSegments (lit " first line " ++ [LF] ++ lit "second "))
  = lit "first line second".
Proof.
  refine (@unstamped_transcript_is_one_paragraph
            (lit " first line " ++ [LF] ++ lit "second ") 8 4 _).
  repeat constructor.
Defined.

(** X15.  No segment text holds a line feed: every line feed of the formatted
    text is part of a break set by the assembler. *)
Theorem segment_texts_have_no_line_feed (textContent : str) :
  Forall (fun segment => oneLine (text segment)) (parseSegments textContent).
Proof.
  apply Forall_map with (f := text) (P := oneLine).
  unfold parseSegments.
  pose proof (splitLines_oneLine (trim textContent)) as Hlines.
  revert Hlines. generalize (splitLines (trim textContent)).
  assert (H : forall lines segments,
             Forall oneLine lines ->
             Forall oneLine (map text segments) ->
             Forall oneLine (map text (fold_left parseLine lines segments))).
  { induction lines as [|l ls IH]; intros segments Hl Hs; simpl; trivial.
    apply Forall_cons_iff in Hl. apply IH; [tauto|].
    apply parseLine_keeps; tauto. }
  intros lines Hlines. apply H; [exact Hlines | constructor].
Qed.
